(** * A shallow embedding of the ELF64 disassembler

    The development follows the two C++ translation units of the repository:

    - [main.cpp]: [isELF], [printELFHeader], [findTextSection], [read32],
      [disassemble] (64-bit register names) and the pipeline of [main];
    - the stand-alone decoder (second translation unit): [read32] and
      [disassemble] with 32-bit register names and the [ret] pattern.

    A [std::vector<uint8_t>] is a [list byte].  Every [operator[]] and every
    read through a reinterpreted pointer is a partial read: inside the
    vector it yields the byte, outside it the C++ program has undefined
    behaviour, which the embedding reports as [None] (or the [OutOfBounds]
    stop of the decoder) instead of inventing a value. *)

From Equations Require Import Equations.
From Stdlib Require Import String Ascii ZArith List Bool Lia.
From Stdlib Require Import Init.Byte Strings.Byte Strings.HexString.
Import ListNotations.

Local Open Scope string_scope.
Local Open Scope Z_scope.

(** ** Bytes, fixed-width integers and partial reads *)

Definition u8 (b : byte) : Z := Z.of_N (Byte.to_N b).

Definition wrap32 (z : Z) : Z := z mod 2 ^ 32.
Definition wrap64 (z : Z) : Z := z mod 2 ^ 64.

(** The error monad of partial reads: [None] is a read outside the buffer. *)
Definition bind {A B : Type} (m : option A) (k : A -> option B) : option B :=
  match m with
  | Some a => k a
  | None => None
  end.

Notation "x <- m ;; k" := (bind m (fun x => k))
  (at level 61, m at next level, right associativity).

(** [code[index]] for a [size_t] index. *)
Definition at_index (code : list byte) (index : nat) : option byte :=
  nth_error code index.

(** [data()[off]] for a 64-bit byte offset.  The offset is compared with the
    length before it is turned into a list position. *)
Definition at_offset (data : list byte) (off : Z) : option byte :=
  if (0 <=? off) && (off <? Z.of_nat (length data))
  then nth_error data (Z.to_nat off)
  else None.

(** ** Text produced by the stream manipulators *)

(** [std::hex << n] with no field width. *)
Definition hex (n : Z) : string :=
  match n with
  | Zpos p => HexString.Raw.of_pos p ""
  | _ => "0"
  end.

Fixpoint zeros (n : nat) : string :=
  match n with
  | O => ""
  | S n' => String "0" (zeros n')
  end.

(** [std::hex << std::setw(w) << std::setfill('0') << n]. *)
Definition hex_pad (w : nat) (n : Z) : string :=
  let s := hex n in
  zeros (w - String.length s) ++ s.

(** ** The instruction decoder *)

(** One completed line of the listing. *)
Record DecodedInstruction : Type := mkInstr {
  address : Z;
  mnemonic : string;
  operandText : string;
  byteWidth : nat
}.

(** How a decode ends. [UnexpectedEnd] is the ["Unexpected end of code"]
    return (the truncated-operand error of the specification);
    [OutOfBounds] is an index outside the vector. *)
Inductive Stop : Type :=
| Finished
| UnexpectedEnd
| OutOfBounds.

(** One iteration of the [while] body: a line and the next cursor, or an
    early exit. *)
Inductive Step : Type :=
| Emit (r : DecodedInstruction) (next : nat)
| Halt (s : Stop).

(** [read32]: four indexed reads, widened to [uint32_t], shifted and or-ed. *)
Definition read32 (code : list byte) (index : nat) : option Z :=
  b0 <- at_index code index ;;
  b1 <- at_index code (index + 1) ;;
  b2 <- at_index code (index + 2) ;;
  b3 <- at_index code (index + 3) ;;
  Some (Z.lor (Z.lor (Z.lor (u8 b0)
                            (wrap32 (Z.shiftl (u8 b1) 8)))
                     (wrap32 (Z.shiftl (u8 b2) 16)))
              (wrap32 (Z.shiftl (u8 b3) 24))).

(** The line printed for a record: the address in a zero-filled field of
    four hexadecimal digits, then mnemonic and operand. *)
Definition render (r : DecodedInstruction) : string :=
  hex_pad 4 (address r) ++ ": " ++ mnemonic r ++
  (if String.eqb (operandText r) "" then "" else " " ++ operandText r).

(** *** The [while (i < code.size())] loop

    Each decoder is its loop body, a function of the cursor, and the loop
    around it, defined by well-founded recursion on the number of bytes
    left after the cursor.  The loop returns the state in which it is left:
    the lines completed so far, the reason for leaving, and the cursor at
    that moment.  When the loop is left by [UnexpectedEnd] or [OutOfBounds]
    the address of the unfinished line has already been printed; only
    completed lines are recorded. *)

Record Exit : Type := mkExit {
  lines : list DecodedInstruction;
  stop : Stop;
  cursor : nat
}.

Definition inspect {A : Type} (a : A) : {b : A | a = b} := exist _ a eq_refl.

(** *** [disassemble] of main.cpp: 64-bit register names *)

Module Main.

Definition reg_names : list string :=
  ["rax"; "rcx"; "rdx"; "rbx"; "rsp"; "rbp"; "rsi"; "rdi"].

(** The body of the loop at cursor [i].  The address is printed first, as
    [baseAddress + i] in [uint64_t]. *)
Definition body (baseAddress : Z) (code : list byte) (i : nat) : Step :=
  match at_index code i with
  | None => Halt OutOfBounds
  | Some b =>
      let addr := wrap64 (baseAddress + Z.of_nat i) in
      let opcode := u8 b in
      if (0xB8 <=? opcode) && (opcode <=? 0xBF) then
        if (length code <? i + 4)%nat then Halt UnexpectedEnd
        else
          match read32 code (i + 1) with
          | None => Halt OutOfBounds
          | Some imm =>
              let reg := opcode - 0xB8 in
              Emit (mkInstr addr "mov"
                      (nth (Z.to_nat reg) reg_names "" ++ ", 0x" ++ hex imm)
                      5)
                   (i + 5)
          end
      else if opcode =? 0x90 then
        Emit (mkInstr addr "nop" "" 1) (i + 1)
      else
        Emit (mkInstr addr "db" ("0x" ++ hex_pad 2 opcode) 1) (i + 1)
  end.

Equations? decode_from (baseAddress : Z) (code : list byte) (i : nat)
    (out : list DecodedInstruction) : Exit
    by wf (length code - i)%nat lt :=
  decode_from baseAddress code i out with inspect (i <? length code)%nat := {
    | exist _ false _ => mkExit out Finished i
    | exist _ true Hlt with inspect (body baseAddress code i) := {
        | exist _ (Halt s) _ => mkExit out s i
        | exist _ (Emit r j) Hb => decode_from baseAddress code j (out ++ [r])%list } }.
Proof.
  apply Nat.ltb_lt in Hlt.
  unfold body in Hb.
  destruct (at_index code i) as [b|]; [|discriminate].
  destruct ((0xB8 <=? u8 b) && (u8 b <=? 0xBF)).
  - destruct (length code <? i + 4)%nat; [discriminate|].
    destruct (read32 code (i + 1)); [|discriminate].
    injection Hb as _ <-; lia.
  - destruct (u8 b =? 0x90); injection Hb as _ <-; lia.
Qed.

(** What [disassemble] leaves on the output: the completed lines and the
    way the loop was left. *)
Definition disassemble (code : list byte) (baseAddress : Z)
  : list DecodedInstruction * Stop :=
  let e := decode_from baseAddress code 0 [] in (lines e, stop e).

End Main.

(** *** [disassemble] of the stand-alone decoder: 32-bit names and [ret] *)

Module Alt.

Definition reg_names : list string :=
  ["eax"; "ecx"; "edx"; "ebx"; "esp"; "ebp"; "esi"; "edi"].

Definition body (code : list byte) (i : nat) : Step :=
  match at_index code i with
  | None => Halt OutOfBounds
  | Some b =>
      let addr := Z.of_nat i in
      let opcode := u8 b in
      if (0xB8 <=? opcode) && (opcode <=? 0xBF) then
        if (length code <? i + 4)%nat then Halt UnexpectedEnd
        else
          match read32 code (i + 1) with
          | None => Halt OutOfBounds
          | Some imm =>
              let reg := opcode - 0xB8 in
              Emit (mkInstr addr "mov"
                      (nth (Z.to_nat reg) reg_names "" ++ ", 0x" ++ hex imm)
                      5)
                   (i + 5)
          end
      else if opcode =? 0xC3 then
        Emit (mkInstr addr "ret" "" 1) (i + 1)
      else if opcode =? 0x90 then
        Emit (mkInstr addr "nop" "" 1) (i + 1)
      else
        Emit (mkInstr addr "db" ("0x" ++ hex_pad 2 opcode) 1) (i + 1)
  end.

Equations? decode_from (code : list byte) (i : nat)
    (out : list DecodedInstruction) : Exit
    by wf (length code - i)%nat lt :=
  decode_from code i out with inspect (i <? length code)%nat := {
    | exist _ false _ => mkExit out Finished i
    | exist _ true Hlt with inspect (body code i) := {
        | exist _ (Halt s) _ => mkExit out s i
        | exist _ (Emit r j) Hb => decode_from code j (out ++ [r])%list } }.
Proof.
  apply Nat.ltb_lt in Hlt.
  unfold body in Hb.
  destruct (at_index code i) as [b|]; [|discriminate].
  destruct ((0xB8 <=? u8 b) && (u8 b <=? 0xBF)).
  - destruct (length code <? i + 4)%nat; [discriminate|].
    destruct (read32 code (i + 1)); [|discriminate].
    injection Hb as _ <-; lia.
  - destruct (u8 b =? 0xC3); [injection Hb as _ <-; lia|].
    destruct (u8 b =? 0x90); injection Hb as _ <-; lia.
Qed.

Definition disassemble (code : list byte) : list DecodedInstruction * Stop :=
  let e := decode_from code 0 [] in (lines e, stop e).

End Alt.

(** ** The ELF structures of main.cpp

    The structures are packed; the program reads them by overlaying them on
    the file bytes ([reinterpret_cast]) on a little-endian host, so a field
    of [n] bytes at offset [o] of a structure placed at [p] is the
    little-endian value of the bytes [p + o .. p + o + n - 1]. *)

Fixpoint load_le (n : nat) (data : list byte) (off : Z) : option Z :=
  match n with
  | O => Some 0
  | S n' =>
      b <- at_offset data off ;;
      hi <- load_le n' data (off + 1) ;;
      Some (u8 b + 256 * hi)
  end.

Definition load8 := load_le 1.
Definition load16 := load_le 2.
Definition load32 := load_le 4.
Definition load64 := load_le 8.

Record Elf32_Ehdr : Type := mkElf32_Ehdr {
  e32_ident : list Z;
  e32_type : Z;
  e32_machine : Z;
  e32_version : Z;
  e32_entry : Z;
  e32_phoff : Z;
  e32_shoff : Z;
  e32_flags : Z;
  e32_ehsize : Z;
  e32_phentsize : Z;
  e32_phnum : Z;
  e32_shentsize : Z;
  e32_shnum : Z;
  e32_shstrndx : Z
}.

Record Elf64_Ehdr : Type := mkElf64_Ehdr {
  e_ident : list Z;
  e_type : Z;
  e_machine : Z;
  e_version : Z;
  e_entry : Z;
  e_phoff : Z;
  e_shoff : Z;
  e_flags : Z;
  e_ehsize : Z;
  e_phentsize : Z;
  e_phnum : Z;
  e_shentsize : Z;
  e_shnum : Z;
  e_shstrndx : Z
}.

Record Elf64_Shdr : Type := mkElf64_Shdr {
  sh_name : Z;
  sh_type : Z;
  sh_flags : Z;
  sh_addr : Z;
  sh_offset : Z;
  sh_size : Z;
  sh_link : Z;
  sh_info : Z;
  sh_addralign : Z;
  sh_entsize : Z
}.

Definition sizeof_Elf32_Ehdr : nat := 52.
Definition sizeof_Elf64_Ehdr : nat := 64.
Definition sizeof_Elf64_Shdr : Z := 64.

(** [unsigned char e_ident[16]] at [p]. *)
Fixpoint load_bytes (n : nat) (data : list byte) (off : Z) : option (list Z) :=
  match n with
  | O => Some []
  | S n' =>
      b <- at_offset data off ;;
      rest <- load_bytes n' data (off + 1) ;;
      Some (u8 b :: rest)
  end.

Definition overlay_Elf32_Ehdr (data : list byte) (p : Z) : option Elf32_Ehdr :=
  ident <- load_bytes 16 data p ;;
  type <- load16 data (p + 16) ;;
  machine <- load16 data (p + 18) ;;
  version <- load32 data (p + 20) ;;
  entry <- load32 data (p + 24) ;;
  phoff <- load32 data (p + 28) ;;
  shoff <- load32 data (p + 32) ;;
  flags <- load32 data (p + 36) ;;
  ehsize <- load16 data (p + 40) ;;
  phentsize <- load16 data (p + 42) ;;
  phnum <- load16 data (p + 44) ;;
  shentsize <- load16 data (p + 46) ;;
  shnum <- load16 data (p + 48) ;;
  shstrndx <- load16 data (p + 50) ;;
  Some (mkElf32_Ehdr ident type machine version entry phoff shoff flags
          ehsize phentsize phnum shentsize shnum shstrndx).

Definition overlay_Elf64_Ehdr (data : list byte) (p : Z) : option Elf64_Ehdr :=
  ident <- load_bytes 16 data p ;;
  type <- load16 data (p + 16) ;;
  machine <- load16 data (p + 18) ;;
  version <- load32 data (p + 20) ;;
  entry <- load64 data (p + 24) ;;
  phoff <- load64 data (p + 32) ;;
  shoff <- load64 data (p + 40) ;;
  flags <- load32 data (p + 48) ;;
  ehsize <- load16 data (p + 52) ;;
  phentsize <- load16 data (p + 54) ;;
  phnum <- load16 data (p + 56) ;;
  shentsize <- load16 data (p + 58) ;;
  shnum <- load16 data (p + 60) ;;
  shstrndx <- load16 data (p + 62) ;;
  Some (mkElf64_Ehdr ident type machine version entry phoff shoff flags
          ehsize phentsize phnum shentsize shnum shstrndx).

Definition overlay_Elf64_Shdr (data : list byte) (p : Z) : option Elf64_Shdr :=
  name <- load32 data p ;;
  type <- load32 data (p + 4) ;;
  flags <- load64 data (p + 8) ;;
  addr <- load64 data (p + 16) ;;
  offset <- load64 data (p + 24) ;;
  size <- load64 data (p + 32) ;;
  link <- load32 data (p + 40) ;;
  info <- load32 data (p + 44) ;;
  addralign <- load64 data (p + 48) ;;
  entsize <- load64 data (p + 56) ;;
  Some (mkElf64_Shdr name type flags addr offset size link info addralign
          entsize).

Definition EI_MAG0 : nat := 0.
Definition EI_MAG1 : nat := 1.
Definition EI_MAG2 : nat := 2.
Definition EI_MAG3 : nat := 3.
Definition EI_CLASS : nat := 4.
Definition EI_DATA : nat := 5.
Definition EI_VERSION : nat := 6.
Definition EI_OSABI : nat := 7.

Definition ELFMAG0 : Z := 0x7f.
Definition ELFMAG1 : Z := 0x45.
Definition ELFMAG2 : Z := 0x4c.
Definition ELFMAG3 : Z := 0x46.

(** ** [isELF] and [printELFHeader] *)

(** [data[k] == m], then the rest of the conjunction only if it held. *)
Definition magic_and (data : list byte) (k : nat) (m : Z)
    (rest : option bool) : option bool :=
  b <- at_index data k ;;
  if u8 b =? m then rest else Some false.

Definition isELF (data : list byte) : option bool :=
  if (length data <? 4)%nat then Some false
  else
    magic_and data EI_MAG0 ELFMAG0
      (magic_and data EI_MAG1 ELFMAG1
         (magic_and data EI_MAG2 ELFMAG2
            (magic_and data EI_MAG3 ELFMAG3 (Some true)))).

(** What [printELFHeader] reports: one of its four one-line messages, or
    the fields of the header it overlaid on the file.  The two
    ["File is too small"] messages are the too-short error of the
    specification. *)
Inductive HeaderReport : Type :=
| NotAnELF
| TooSmallELF32
| TooSmallELF64
| UnknownClass (elfClass : Z)
| HeaderELF32 (hdr : Elf32_Ehdr)
| HeaderELF64 (hdr : Elf64_Ehdr).

Definition printELFHeader (data : list byte) : option HeaderReport :=
  elf <- isELF data ;;
  if negb elf then Some NotAnELF
  else
    c <- at_index data EI_CLASS ;;
    let elfClass := u8 c in
    if elfClass =? 1 then
      if (length data <? sizeof_Elf32_Ehdr)%nat then Some TooSmallELF32
      else hdr <- overlay_Elf32_Ehdr data 0 ;; Some (HeaderELF32 hdr)
    else if elfClass =? 2 then
      if (length data <? sizeof_Elf64_Ehdr)%nat then Some TooSmallELF64
      else hdr <- overlay_Elf64_Ehdr data 0 ;; Some (HeaderELF64 hdr)
    else Some (UnknownClass elfClass).

(** ** [findTextSection] *)

Inductive LocateError : Type :=
| NoSectionTable
| InvalidStringTableIndex
| NoTextSection.

(** [return true] with the two output parameters set, or [return false]
    after one of the three messages. *)
Inductive Located : Type :=
| Found (textSectionOffset textSectionSize : Z)
| NotFound (why : LocateError).

Definition dot_text : list byte := list_byte_of_string ".text".

(** [std::strcmp(data() + pos, s) == 0] for a literal [s] without a zero
    byte: the bytes are compared one by one, up to the first difference or
    to the zero that ends both strings. *)
Fixpoint strcmp_eq (data : list byte) (pos : Z) (s : list byte)
    : option bool :=
  match s with
  | [] => c <- at_offset data pos ;; Some (u8 c =? 0)
  | k :: s' =>
      c <- at_offset data pos ;;
      if Byte.eqb c k then strcmp_eq data (pos + 1) s' else Some false
  end.

(** The [for (uint16_t i = 0; i < sectionCount; i++)] loop, with
    [remaining = sectionCount - i].  [sectionHeaders] and
    [sectionStringTable] are pointers, given by their distance from
    [fileData.data()]; adding to a pointer is 64-bit arithmetic, so every
    address computed here is taken modulo [2^64] before the bytes are
    read: a sum that passes [2^64] comes back to the start of the vector.
    A read begins at the reduced address and is outside the buffer as soon
    as one of its bytes is.
    [sh] is a reference into the table: [sh_name] is read for the
    comparison, [sh_offset] and [sh_size] only when the name matched. *)
Fixpoint scan_sections (fileData : list byte)
    (sectionHeaders sectionStringTable : Z) (remaining : nat) (i : Z)
    : option Located :=
  match remaining with
  | O => Some (NotFound NoTextSection)
  | S remaining' =>
      let sh := wrap64 (sectionHeaders + sizeof_Elf64_Shdr * i) in
      name <- load32 fileData sh ;;
      let sectionName := wrap64 (sectionStringTable + name) in
      same <- strcmp_eq fileData sectionName dot_text ;;
      if same then
        offset <- load64 fileData (wrap64 (sh + 24)) ;;
        size <- load64 fileData (wrap64 (sh + 32)) ;;
        Some (Found offset size)
      else
        scan_sections fileData sectionHeaders sectionStringTable
          remaining' (i + 1)
  end.

Definition findTextSection (fileData : list byte) (elfHeader : Elf64_Ehdr)
    : option Located :=
  if (e_shoff elfHeader =? 0) || (e_shnum elfHeader =? 0)
  then Some (NotFound NoSectionTable)
  else
    let sectionHeaderOffset := e_shoff elfHeader in
    let sectionCount := e_shnum elfHeader in
    let sectionStringTableIndex := e_shstrndx elfHeader in
    if sectionCount <=? sectionStringTableIndex
    then Some (NotFound InvalidStringTableIndex)
    else
      sectionStringTableHeader <-
        overlay_Elf64_Shdr fileData
          (wrap64 (sectionHeaderOffset
                   + sizeof_Elf64_Shdr * sectionStringTableIndex)) ;;
      scan_sections fileData sectionHeaderOffset
        (sh_offset sectionStringTableHeader) (Z.to_nat sectionCount) 0.

(** [findTextSection(fileData, elfHeader)] as [main] calls it, with
    [elfHeader] a pointer to byte [elfHeader] of [fileData] rather than a
    structure of its own: each field is read from the file when the
    function first evaluates it.  [e_shoff] comes first and [e_shnum] only
    when [e_shoff] is not zero ([||] does not evaluate its right side
    otherwise); the message of the first check needs nothing else.  After
    that check [e_shstrndx], the last field of the structure, is read, so
    the whole structure has to lie in the file. *)
Definition findTextSection_in_file (fileData : list byte) (elfHeader : Z)
    : option Located :=
  shoff <- load64 fileData (elfHeader + 40) ;;
  if shoff =? 0 then Some (NotFound NoSectionTable)
  else
    shnum <- load16 fileData (elfHeader + 60) ;;
    if shnum =? 0 then Some (NotFound NoSectionTable)
    else
      header <- overlay_Elf64_Ehdr fileData elfHeader ;;
      findTextSection fileData header.

(** ** The pipeline of [main] *)

(** The range constructor [vector(begin + off, begin + off + size)]: the
    bytes [off .. off + size - 1], all of which must lie in the vector. *)
Definition slice (data : list byte) (off size : Z) : option (list byte) :=
  if (0 <=? off) && (0 <=? size) && (off + size <=? Z.of_nat (length data))
  then Some (firstn (Z.to_nat size) (skipn (Z.to_nat off) data))
  else None.

(** How [main] ends once the file is in memory: [return 1] after a failed
    lookup, [return 1] after the size check, or [return 0] after the
    listing of the extracted section.  The report of [printELFHeader] is
    not used: whatever it says, [main] goes on.  [main] hands
    [findTextSection] a pointer to the first byte of the file as the
    header, so the header fields are read from the file as the lookup
    needs them. *)
Inductive Outcome : Type :=
| LocateFailed (why : LocateError)
| SectionExceedsFile
| Disassembled (textSection : list byte)
    (listing : list DecodedInstruction * Stop).

Definition main (code : list byte) : option Outcome :=
  _ <- printELFHeader code ;;
  found <- findTextSection_in_file code 0 ;;
  match found with
  | NotFound why => Some (LocateFailed why)
  | Found textSectionOffset textSize =>
      if Z.of_nat (length code) <? wrap64 (textSectionOffset + textSize)
      then Some SectionExceedsFile
      else
        textSection <- slice code textSectionOffset textSize ;;
        Some (Disassembled textSection (Main.disassemble textSection 0))
  end.

(** ** Notions used to state the properties *)

(** The number of input bytes covered by a run of lines. *)
Definition span (recs : list DecodedInstruction) : nat :=
  list_sum (map byteWidth recs).

(** [recs] tile [n] bytes from address 0: each line sits at the sum of the
    widths before it, two lines in a row touch without overlapping,
    addresses grow strictly, and the widths add up to [n]. *)
Definition tiling (recs : list DecodedInstruction) (n : nat) : Prop :=
  (forall k r, nth_error recs k = Some r ->
     address r = Z.of_nat (span (firstn k recs))) /\
  (forall k r r', nth_error recs k = Some r ->
     nth_error recs (S k) = Some r' ->
     address r' = address r + Z.of_nat (byteWidth r)) /\
  (forall k k' r r', (k < k')%nat -> nth_error recs k = Some r ->
     nth_error recs k' = Some r' -> address r < address r') /\
  span recs = n.

(** [recs] were produced one after the other from cursor [start]: each
    line carries the address printed at its cursor and is 1 or 5 bytes
    wide, and the next line starts where it ends. *)
Fixpoint laid_from (addr : nat -> Z) (start : nat)
    (recs : list DecodedInstruction) : Prop :=
  match recs with
  | [] => True
  | r :: recs' =>
      address r = addr start /\
      (byteWidth r = 1 \/ byteWidth r = 5)%nat /\
      laid_from addr (start + byteWidth r) recs'
  end.

(** The unsigned little-endian value of four bytes. *)
Definition le32 (b0 b1 b2 b3 : byte) : Z :=
  u8 b0 + 2 ^ 8 * u8 b1 + 2 ^ 16 * u8 b2 + 2 ^ 24 * u8 b3.

(** The zero-terminated run of bytes at the head of [l], without its
    terminator; [None] when [l] holds no zero byte. *)
Fixpoint cstring (l : list byte) : option (list byte) :=
  match l with
  | [] => None
  | b :: l' =>
      if Byte.eqb b x00 then Some []
      else option_map (cons b) (cstring l')
  end.

(** The zero-terminated name found at byte offset [pos] of the image. *)
Definition cstring_at (data : list byte) (pos : Z) : option (list byte) :=
  if (0 <=? pos) && (pos <? Z.of_nat (length data))
  then cstring (skipn (Z.to_nat pos) data)
  else None.

(** Entry [i] of the section table of [elfHeader] starts at this byte of
    the image; like every address of the lookup it is taken modulo
    [2^64]. *)
Definition section_entry_at (elfHeader : Elf64_Ehdr) (i : Z) : Z :=
  wrap64 (e_shoff elfHeader + sizeof_Elf64_Shdr * i).

(** The file offset stored in the string-table entry of the table. *)
Definition name_pool (fileData : list byte) (elfHeader : Elf64_Ehdr)
    : option Z :=
  strtab <- overlay_Elf64_Shdr fileData
              (section_entry_at elfHeader (e_shstrndx elfHeader)) ;;
  Some (sh_offset strtab).

(** The resolved name of entry [i]: the zero-terminated run in the image
    at the string-table section's file offset plus the entry's name
    offset, modulo [2^64]. *)
Definition section_name (fileData : list byte) (elfHeader : Elf64_Ehdr)
    (i : Z) : option (list byte) :=
  pool <- name_pool fileData elfHeader ;;
  name <- load32 fileData (section_entry_at elfHeader i) ;;
  cstring_at fileData (wrap64 (pool + name)).

(** The file offset and size stored in entry [i]. *)
Definition section_range (fileData : list byte) (elfHeader : Elf64_Ehdr)
    (i : Z) : option (Z * Z) :=
  offset <- load64 fileData (wrap64 (section_entry_at elfHeader i + 24)) ;;
  size <- load64 fileData (wrap64 (section_entry_at elfHeader i + 32)) ;;
  Some (offset, size).

(** A section table that the locator can walk: present, with the string
    table index in range, every entry inside the image and every entry's
    name resolved inside the image. *)
Definition valid_section_table (fileData : list byte)
    (elfHeader : Elf64_Ehdr) : Prop :=
  0 < e_shoff elfHeader /\
  0 < e_shnum elfHeader /\
  0 <= e_shstrndx elfHeader < e_shnum elfHeader /\
  e_shoff elfHeader + sizeof_Elf64_Shdr * e_shnum elfHeader
    <= Z.of_nat (length fileData) /\
  (forall i, 0 <= i < e_shnum elfHeader ->
     exists name, section_name fileData elfHeader i = Some name).

(** Entry [j] of the table at [shoff] was examined against the name pool at
    [pool] and its name compared different from [.text]. *)
Definition skipped (fileData : list byte) (shoff pool : Z) (j : Z) : Prop :=
  exists name,
    load32 fileData (wrap64 (shoff + sizeof_Elf64_Shdr * j)) = Some name /\
    strcmp_eq fileData (wrap64 (pool + name)) dot_text = Some false.

(** [strcmp_eq] on the bytes that start at the compared position. *)
Fixpoint strcmp_list (l s : list byte) : option bool :=
  match s, l with
  | _, [] => None
  | [], c :: _ => Some (u8 c =? 0)
  | k :: s', c :: l' =>
      if Byte.eqb c k then strcmp_list l' s' else Some false
  end.

(** ** Sample images *)

Definition byte_of (z : Z) : byte :=
  match Byte.of_N (Z.to_N (z mod 256)) with
  | Some b => b
  | None => x00
  end.

Fixpoint le_bytes (n : nat) (z : Z) : list byte :=
  match n with
  | O => []
  | S n' => byte_of z :: le_bytes n' (z / 256)
  end.

(** A 64-byte little-endian ELF64 header for x86-64 with the given section
    table offset, entry count and string table index. *)
Definition ehdr64_bytes (shoff shnum shstrndx : Z) : list byte :=
  ([x7f; x45; x4c; x46; x02; x01; x01; x00] ++ repeat x00 8 ++
   le_bytes 2 2 ++ le_bytes 2 0x3e ++ le_bytes 4 1 ++
   le_bytes 8 0x401000 ++ le_bytes 8 0 ++ le_bytes 8 shoff ++
   le_bytes 4 0 ++ le_bytes 2 64 ++ le_bytes 2 0 ++ le_bytes 2 0 ++
   le_bytes 2 64 ++ le_bytes 2 shnum ++ le_bytes 2 shstrndx)%list.

(** A 64-byte section header with the given name offset, file offset and
    size. *)
Definition shdr64_bytes (name offset size : Z) : list byte :=
  (le_bytes 4 name ++ le_bytes 4 1 ++ le_bytes 8 0 ++ le_bytes 8 0 ++
   le_bytes 8 offset ++ le_bytes 8 size ++ le_bytes 4 0 ++ le_bytes 4 0 ++
   le_bytes 8 0 ++ le_bytes 8 0)%list.

(** The header structure that [ehdr64_bytes] lays out. *)
Definition ehdr64 (shoff shnum shstrndx : Z) : Elf64_Ehdr :=
  mkElf64_Ehdr
    [0x7f; 0x45; 0x4c; 0x46; 2; 1; 1; 0; 0; 0; 0; 0; 0; 0; 0; 0]
    2 0x3e 1 0x401000 0 shoff 0 64 0 0 64 shnum shstrndx.

(** Two entries named [.text] after the string table entry; the pool
    ["\0.text\0.text\0"] starts at offset 256, the code bytes at 269. *)
Definition image_two_text : list byte :=
  (ehdr64_bytes 64 3 0 ++
   shdr64_bytes 0 256 13 ++
   shdr64_bytes 1 269 6 ++
   shdr64_bytes 7 275 1 ++
   [x00] ++ dot_text ++ [x00] ++ dot_text ++ [x00] ++
   [xb8; x01; x00; x00; x00; x90; xc3])%list.

(** A [.text] entry whose file offset is [2^64 - 1] and whose size is 2. *)
Definition image_wrapping_text : list byte :=
  (ehdr64_bytes 64 2 0 ++
   shdr64_bytes 5 192 6 ++
   shdr64_bytes 0 (2 ^ 64 - 1) 2 ++
   dot_text ++ [x00])%list.

(** A string table section of one byte (the byte at offset 192); the
    second entry's name offset 1 points behind it, at the bytes [.text]
    that follow the section in the file. *)
Definition image_name_past_strtab : list byte :=
  (ehdr64_bytes 64 2 0 ++
   shdr64_bytes 0 192 1 ++
   shdr64_bytes 1 199 2 ++
   [x00] ++ dot_text ++ [x00] ++ [x90; x90])%list.

(** A header that announces one section at offset 64 in a file that ends
    with the header. *)
Definition image_header_only : list byte := ehdr64_bytes 64 1 0.

(** A string table entry whose file offset is [2^64 - 8]: with the name
    offsets 200 and 201 the name addresses come back to the bytes 192 and
    193 of the file, where the pool ["\0.text\0"] lies; the code byte is
    at 199. *)
Definition image_wrapping_name : list byte :=
  (ehdr64_bytes 64 2 0 ++
   shdr64_bytes 200 (2 ^ 64 - 8) 7 ++
   shdr64_bytes 201 199 1 ++
   [x00] ++ dot_text ++ [x00] ++ [xc3])%list.

(** A valid table without an entry named [.text]: the string table entry
    with the empty name and an entry named [.data]. *)
Definition image_no_text : list byte :=
  (ehdr64_bytes 64 2 0 ++
   shdr64_bytes 0 192 7 ++
   shdr64_bytes 1 199 1 ++
   [x00] ++ list_byte_of_string ".data" ++ [x00] ++ [x90])%list.

(** The lower-case hexadecimal digit of a value below 16. *)
Definition hex_digit (d : Z) : ascii :=
  match d with
  | 0 => "0" | 1 => "1" | 2 => "2" | 3 => "3"
  | 4 => "4" | 5 => "5" | 6 => "6" | 7 => "7"
  | 8 => "8" | 9 => "9" | 10 => "a" | 11 => "b"
  | 12 => "c" | 13 => "d" | 14 => "e" | _ => "f"
  end%char.

(** ** Notions used for the further properties *)

(** The opcodes of the load-immediate pattern. *)
Definition is_mov_opcode (b : byte) : Prop := 0xB8 <= u8 b <= 0xBF.

(** A line moved [n] bytes further in the address space. *)
Definition relocate (n : nat) (r : DecodedInstruction) : DecodedInstruction :=
  mkInstr (address r + Z.of_nat n) (mnemonic r) (operandText r) (byteWidth r).

(** Two loop bodies take the same step: they stop the same way, or emit
    lines of the same width and go on at the same cursor. *)
Definition same_step (a b : Step) : Prop :=
  match a, b with
  | Emit r j, Emit r' j' => j = j' /\ byteWidth r = byteWidth r'
  | Halt s, Halt s' => s = s'
  | _, _ => False
  end.

(** [v] fits an unsigned field of [n] bytes. *)
Definition fits (n : nat) (v : Z) : Prop := 0 <= v < 256 ^ Z.of_nat n.

(** The bytes of a packed [Elf64_Ehdr] on the little-endian host. *)
Definition encode_Elf64_Ehdr (h : Elf64_Ehdr) : list byte :=
  (map byte_of (e_ident h) ++
   le_bytes 2 (e_type h) ++ le_bytes 2 (e_machine h) ++
   le_bytes 4 (e_version h) ++ le_bytes 8 (e_entry h) ++
   le_bytes 8 (e_phoff h) ++ le_bytes 8 (e_shoff h) ++
   le_bytes 4 (e_flags h) ++ le_bytes 2 (e_ehsize h) ++
   le_bytes 2 (e_phentsize h) ++ le_bytes 2 (e_phnum h) ++
   le_bytes 2 (e_shentsize h) ++ le_bytes 2 (e_shnum h) ++
   le_bytes 2 (e_shstrndx h))%list.

(** Every field of the header holds a value of its declared width. *)
Definition wf_Elf64_Ehdr (h : Elf64_Ehdr) : Prop :=
  length (e_ident h) = 16%nat /\ Forall (fits 1) (e_ident h) /\
  fits 2 (e_type h) /\ fits 2 (e_machine h) /\ fits 4 (e_version h) /\
  fits 8 (e_entry h) /\ fits 8 (e_phoff h) /\ fits 8 (e_shoff h) /\
  fits 4 (e_flags h) /\ fits 2 (e_ehsize h) /\ fits 2 (e_phentsize h) /\
  fits 2 (e_phnum h) /\ fits 2 (e_shentsize h) /\ fits 2 (e_shnum h) /\
  fits 2 (e_shstrndx h).

(** The bytes of a packed [Elf32_Ehdr] on the little-endian host. *)
Definition encode_Elf32_Ehdr (h : Elf32_Ehdr) : list byte :=
  (map byte_of (e32_ident h) ++
   le_bytes 2 (e32_type h) ++ le_bytes 2 (e32_machine h) ++
   le_bytes 4 (e32_version h) ++ le_bytes 4 (e32_entry h) ++
   le_bytes 4 (e32_phoff h) ++ le_bytes 4 (e32_shoff h) ++
   le_bytes 4 (e32_flags h) ++ le_bytes 2 (e32_ehsize h) ++
   le_bytes 2 (e32_phentsize h) ++ le_bytes 2 (e32_phnum h) ++
   le_bytes 2 (e32_shentsize h) ++ le_bytes 2 (e32_shnum h) ++
   le_bytes 2 (e32_shstrndx h))%list.

Definition wf_Elf32_Ehdr (h : Elf32_Ehdr) : Prop :=
  length (e32_ident h) = 16%nat /\ Forall (fits 1) (e32_ident h) /\
  fits 2 (e32_type h) /\ fits 2 (e32_machine h) /\ fits 4 (e32_version h) /\
  fits 4 (e32_entry h) /\ fits 4 (e32_phoff h) /\ fits 4 (e32_shoff h) /\
  fits 4 (e32_flags h) /\ fits 2 (e32_ehsize h) /\ fits 2 (e32_phentsize h) /\
  fits 2 (e32_phnum h) /\ fits 2 (e32_shentsize h) /\ fits 2 (e32_shnum h) /\
  fits 2 (e32_shstrndx h).

(** [recs] are the lines a loop around [body] emits one after the other
    from cursor [start], arriving at cursor [final]. *)
Fixpoint emitted (body : list byte -> nat -> Step) (code : list byte)
    (start : nat) (recs : list DecodedInstruction) (final : nat) : Prop :=
  match recs with
  | [] => start = final
  | r :: recs' =>
      exists j, body code start = Emit r j /\ emitted body code j recs' final
  end.

(** [load_le] and [load_bytes] on the bytes that start at the read
    position. *)
Fixpoint load_le_list (n : nat) (l : list byte) : option Z :=
  match n, l with
  | O, _ => Some 0
  | S _, [] => None
  | S n', b :: l' => hi <- load_le_list n' l' ;; Some (u8 b + 256 * hi)
  end.

Fixpoint load_bytes_list (n : nat) (l : list byte) : option (list Z) :=
  match n, l with
  | O, _ => Some []
  | S _, [] => None
  | S n', b :: l' => rest <- load_bytes_list n' l' ;; Some (u8 b :: rest)
  end.

(** The four magic bytes. *)
Definition elf_magic : list byte := [x7f; x45; x4c; x46].

(** * Properties *)

(** ** Bytes and little-endian reads *)

Lemma wrap64_range (z : Z) : 0 <= wrap64 z < 2 ^ 64.
Proof. unfold wrap64. apply Z.mod_pos_bound. reflexivity. Qed.

(** Reducing a non-negative address modulo [2^64] never moves it up. *)
Lemma wrap64_le (z : Z) : 0 <= z -> wrap64 z <= z.
Proof. intros H. unfold wrap64. apply Z.mod_le; [assumption | reflexivity]. Qed.

Lemma wrap64_small (z : Z) : 0 <= z < 2 ^ 64 -> wrap64 z = z.
Proof. intros H. unfold wrap64. apply Z.mod_small. assumption. Qed.

Lemma u8_range (b : byte) : 0 <= u8 b < 256.
Proof.
  unfold u8.
  pose proof (Byte.to_N_bounded b) as H.
  lia.
Qed.

Lemma u8_zero (b : byte) : (u8 b =? 0) = Byte.eqb b x00.
Proof. destruct b; reflexivity. Qed.

(** Or-ing a value shifted above every set bit of [a] is an addition. *)
Lemma lor_shiftl_add (a b n : Z) :
  0 <= n -> 0 <= a < 2 ^ n -> Z.lor a (Z.shiftl b n) = a + b * 2 ^ n.
Proof.
  intros Hn Ha.
  assert (Hdisj : Z.land a (Z.shiftl b n) = 0).
  { apply Z.bits_inj'. intros m Hm.
    rewrite Z.land_spec, Z.bits_0.
    destruct (Z.lt_ge_cases m n) as [Hlow | Hhigh].
    - rewrite Z.shiftl_spec_low by assumption. apply andb_false_r.
    - destruct (Z.eq_dec a 0) as [-> | Hnz].
      + rewrite Z.bits_0. reflexivity.
      + rewrite (Z.bits_above_log2 a m); [reflexivity | lia |].
        apply Z.lt_le_trans with n; [|assumption].
        apply Z.log2_lt_pow2; lia. }
  rewrite <- Z.lxor_lor by assumption.
  rewrite <- Z.add_nocarry_lxor by assumption.
  rewrite Z.shiftl_mul_pow2 by assumption.
  reflexivity.
Qed.

Lemma at_index_some (code : list byte) (i : nat) :
  (i < length code)%nat -> exists b, at_index code i = Some b.
Proof.
  intros H. unfold at_index.
  destruct (nth_error code i) as [b|] eqn:E; [eauto|].
  apply nth_error_None in E. lia.
Qed.

Lemma at_index_none (code : list byte) (i : nat) :
  (length code <= i)%nat -> at_index code i = None.
Proof. intros H. apply nth_error_None. assumption. Qed.

Lemma at_index_lt (code : list byte) (i : nat) (b : byte) :
  at_index code i = Some b -> (i < length code)%nat.
Proof. intros H. apply nth_error_Some. unfold at_index in H. congruence. Qed.

(** [read32] on four bytes inside the vector is their little-endian
    value. *)
Lemma read32_value (code : list byte) (index : nat) (b0 b1 b2 b3 : byte) :
  at_index code index = Some b0 ->
  at_index code (index + 1) = Some b1 ->
  at_index code (index + 2) = Some b2 ->
  at_index code (index + 3) = Some b3 ->
  read32 code index = Some (le32 b0 b1 b2 b3).
Proof.
  intros H0 H1 H2 H3. unfold read32. rewrite H0, H1, H2, H3. unfold bind.
  pose proof (u8_range b0). pose proof (u8_range b1).
  pose proof (u8_range b2). pose proof (u8_range b3).
  f_equal. unfold wrap32, le32.
  rewrite !Z.shiftl_mul_pow2 by lia.
  rewrite !Z.mod_small by lia.
  rewrite <- !Z.shiftl_mul_pow2 by lia.
  rewrite (lor_shiftl_add (u8 b0) (u8 b1) 8) by lia.
  rewrite (lor_shiftl_add _ (u8 b2) 16) by lia.
  rewrite (lor_shiftl_add _ (u8 b3) 24) by lia.
  lia.
Qed.

(** [read32] leaves the vector exactly when its last index does. *)
Lemma read32_none (code : list byte) (index : nat) :
  read32 code index = None <-> (length code <= index + 3)%nat.
Proof.
  split.
  - intros H.
    destruct (Nat.le_gt_cases (length code) (index + 3)) as [|Hlt];
      [assumption | exfalso].
    destruct (at_index_some code index) as [b0 E0]; [lia|].
    destruct (at_index_some code (index + 1)) as [b1 E1]; [lia|].
    destruct (at_index_some code (index + 2)) as [b2 E2]; [lia|].
    destruct (at_index_some code (index + 3)) as [b3 E3]; [lia|].
    rewrite (read32_value _ _ _ _ _ _ E0 E1 E2 E3) in H. discriminate.
  - intros H. unfold read32.
    rewrite (at_index_none code (index + 3)) by assumption.
    destruct (at_index code index); simpl; [|reflexivity].
    destruct (at_index code (index + 1)); simpl; [|reflexivity].
    destruct (at_index code (index + 2)); reflexivity.
Qed.

(** ** The decode loop *)

Lemma Main_decode_from_unfold baseAddress code i out :
  Main.decode_from baseAddress code i out =
  if (i <? length code)%nat then
    match Main.body baseAddress code i with
    | Emit r j => Main.decode_from baseAddress code j (out ++ [r])
    | Halt s => mkExit out s i
    end
  else mkExit out Finished i.
Proof.
  funelim (Main.decode_from baseAddress code i out);
    repeat match goal with
           | E : (?a <? ?b)%nat = _ |- context [(?a <? ?b)%nat] => rewrite E
           | E : Main.body ?a ?b ?c = _ |- context [Main.body ?a ?b ?c] =>
               rewrite E
           end; reflexivity.
Qed.

Lemma Alt_decode_from_unfold code i out :
  Alt.decode_from code i out =
  if (i <? length code)%nat then
    match Alt.body code i with
    | Emit r j => Alt.decode_from code j (out ++ [r])
    | Halt s => mkExit out s i
    end
  else mkExit out Finished i.
Proof.
  funelim (Alt.decode_from code i out);
    repeat match goal with
           | E : (?a <? ?b)%nat = _ |- context [(?a <? ?b)%nat] => rewrite E
           | E : Alt.body ?a ?b = _ |- context [Alt.body ?a ?b] => rewrite E
           end; reflexivity.
Qed.

(** Facts shared by the two decoders: any loop of this shape around a body
    that emits lines of width 1 or 5 inside the input. *)
Section LoopFacts.

Variable body : list byte -> nat -> Step.
Variable loop : list byte -> nat -> list DecodedInstruction -> Exit.
Variable addr : nat -> Z.

Hypothesis loop_unfold : forall code i out,
  loop code i out =
  if (i <? length code)%nat then
    match body code i with
    | Emit r j => loop code j (out ++ [r])
    | Halt s => mkExit out s i
    end
  else mkExit out Finished i.

Hypothesis body_emit : forall code i r j,
  body code i = Emit r j ->
  address r = addr i /\ j = (i + byteWidth r)%nat /\
  (byteWidth r = 1 \/ byteWidth r = 5)%nat /\ (j <= length code)%nat.

Hypothesis body_halt : forall code i s, body code i = Halt s -> s <> Finished.

Lemma loop_exit (n : nat) : forall code i out,
  (length code - i <= n)%nat -> (i <= length code)%nat ->
  exists recs,
    lines (loop code i out) = (out ++ recs)%list /\
    laid_from addr i recs /\
    cursor (loop code i out) = (i + span recs)%nat /\
    (cursor (loop code i out) <= length code)%nat /\
    (stop (loop code i out) = Finished <->
     cursor (loop code i out) = length code).
Proof.
  induction n as [|n IH]; intros code i out Hn Hi; rewrite loop_unfold.
  - assert (E : (i <? length code)%nat = false) by (apply Nat.ltb_ge; lia).
    rewrite E. exists []. cbn. rewrite app_nil_r.
    repeat split; intros; lia.
  - destruct (i <? length code)%nat eqn:E.
    + apply Nat.ltb_lt in E.
      destruct (body code i) as [r j|s] eqn:Eb.
      * destruct (body_emit _ _ _ _ Eb) as (Ha & Hj & Hw & Hle).
        destruct (IH code j (out ++ [r])%list)
          as (recs & Hl & Hc & Hcur & Hb & Hs); [lia | lia |].
        exists (r :: recs). rewrite Hl, <- app_assoc.
        unfold span in *. simpl. subst j.
        repeat split; try assumption; try lia; apply Hs.
      * exists []. cbn. rewrite app_nil_r.
        repeat split; intros; try lia.
        exfalso. eapply body_halt; eassumption.
    + apply Nat.ltb_ge in E. exists []. cbn. rewrite app_nil_r.
      repeat split; intros; lia.
Qed.

End LoopFacts.

(** ** The two loop bodies *)

Lemma Main_body_emit baseAddress code i r j :
  Main.body baseAddress code i = Emit r j ->
  address r = wrap64 (baseAddress + Z.of_nat i) /\
  j = (i + byteWidth r)%nat /\
  (byteWidth r = 1 \/ byteWidth r = 5)%nat /\ (j <= length code)%nat.
Proof.
  unfold Main.body.
  destruct (at_index code i) as [b|] eqn:Eb; [|discriminate].
  apply at_index_lt in Eb.
  destruct ((0xB8 <=? u8 b) && (u8 b <=? 0xBF)).
  - destruct (length code <? i + 4)%nat; [discriminate|].
    destruct (read32 code (i + 1)) as [imm|] eqn:Er; [|discriminate].
    assert (Hin : ~ (length code <= i + 1 + 3)%nat).
    { intros H. apply read32_none in H. congruence. }
    intros H. injection H as <- <-. cbn. repeat split; lia.
  - destruct (u8 b =? 0x90); intros H; injection H as <- <-; cbn;
      repeat split; lia.
Qed.

Lemma Main_body_halt baseAddress code i s :
  Main.body baseAddress code i = Halt s -> s <> Finished.
Proof.
  unfold Main.body.
  destruct (at_index code i) as [b|]; [|intros H; injection H as <-; discriminate].
  destruct ((0xB8 <=? u8 b) && (u8 b <=? 0xBF)).
  - destruct (length code <? i + 4)%nat;
      [intros H; injection H as <-; discriminate|].
    destruct (read32 code (i + 1)); [discriminate|].
    intros H; injection H as <-; discriminate.
  - destruct (u8 b =? 0x90); discriminate.
Qed.

Lemma Alt_body_emit code i r j :
  Alt.body code i = Emit r j ->
  address r = Z.of_nat i /\
  j = (i + byteWidth r)%nat /\
  (byteWidth r = 1 \/ byteWidth r = 5)%nat /\ (j <= length code)%nat.
Proof.
  unfold Alt.body.
  destruct (at_index code i) as [b|] eqn:Eb; [|discriminate].
  apply at_index_lt in Eb.
  destruct ((0xB8 <=? u8 b) && (u8 b <=? 0xBF)).
  - destruct (length code <? i + 4)%nat; [discriminate|].
    destruct (read32 code (i + 1)) as [imm|] eqn:Er; [|discriminate].
    assert (Hin : ~ (length code <= i + 1 + 3)%nat).
    { intros H. apply read32_none in H. congruence. }
    intros H. injection H as <- <-. cbn. repeat split; lia.
  - destruct (u8 b =? 0xC3);
      [intros H; injection H as <- <-; cbn; repeat split; lia|].
    destruct (u8 b =? 0x90); intros H; injection H as <- <-; cbn;
      repeat split; lia.
Qed.

Lemma Alt_body_halt code i s :
  Alt.body code i = Halt s -> s <> Finished.
Proof.
  unfold Alt.body.
  destruct (at_index code i) as [b|]; [|intros H; injection H as <-; discriminate].
  destruct ((0xB8 <=? u8 b) && (u8 b <=? 0xBF)).
  - destruct (length code <? i + 4)%nat;
      [intros H; injection H as <-; discriminate|].
    destruct (read32 code (i + 1)); [discriminate|].
    intros H; injection H as <-; discriminate.
  - destruct (u8 b =? 0xC3); [discriminate|].
    destruct (u8 b =? 0x90); discriminate.
Qed.

(** The state in which each loop is left, started at cursor 0 with no
    line. *)
Lemma Main_exit baseAddress code :
  let e := Main.decode_from baseAddress code 0 [] in
  laid_from (fun i => wrap64 (baseAddress + Z.of_nat i)) 0 (lines e) /\
  cursor e = span (lines e) /\
  (cursor e <= length code)%nat /\
  (stop e = Finished <-> cursor e = length code).
Proof.
  destruct (loop_exit (Main.body baseAddress) (Main.decode_from baseAddress)
              (fun i => wrap64 (baseAddress + Z.of_nat i))
              (Main_decode_from_unfold baseAddress)
              (Main_body_emit baseAddress) (Main_body_halt baseAddress)
              (length code) code 0%nat [])
    as (recs & Hl & Hc & Hcur & Hb & Hs); [lia | lia |].
  cbn zeta. rewrite Hl. cbn [app]. auto.
Qed.

Lemma Alt_exit code :
  let e := Alt.decode_from code 0 [] in
  laid_from Z.of_nat 0 (lines e) /\
  cursor e = span (lines e) /\
  (cursor e <= length code)%nat /\
  (stop e = Finished <-> cursor e = length code).
Proof.
  destruct (loop_exit Alt.body Alt.decode_from Z.of_nat
              Alt_decode_from_unfold Alt_body_emit Alt_body_halt
              (length code) code 0%nat [])
    as (recs & Hl & Hc & Hcur & Hb & Hs); [lia | lia |].
  cbn zeta. rewrite Hl. cbn [app]. auto.
Qed.

(** ** Lines laid one after the other tile the bytes they cover *)

Lemma span_cons (x : DecodedInstruction) (xs : list DecodedInstruction) :
  span (x :: xs) = (byteWidth x + span xs)%nat.
Proof. reflexivity. Qed.

Lemma span_app (xs ys : list DecodedInstruction) :
  span (xs ++ ys) = (span xs + span ys)%nat.
Proof. unfold span. rewrite map_app, list_sum_app. reflexivity. Qed.

Lemma span_firstn_succ (recs : list DecodedInstruction) :
  forall k r, nth_error recs k = Some r ->
  span (firstn (S k) recs) = (span (firstn k recs) + byteWidth r)%nat.
Proof.
  induction recs as [|x recs IH]; intros [|k] r H; try discriminate.
  - injection H as ->. unfold span. cbn. lia.
  - cbn in H. specialize (IH k r H).
    change (firstn (S (S k)) (x :: recs)) with (x :: firstn (S k) recs).
    change (firstn (S k) (x :: recs)) with (x :: firstn k recs).
    rewrite !span_cons. lia.
Qed.

Lemma span_firstn_mono (recs : list DecodedInstruction) :
  forall k k', (k <= k')%nat ->
  (span (firstn k recs) <= span (firstn k' recs))%nat.
Proof.
  induction recs as [|x recs IH]; intros k k' H.
  - rewrite !firstn_nil. lia.
  - destruct k as [|k]; [unfold span; cbn; lia|].
    destruct k' as [|k']; [lia|].
    specialize (IH k k' ltac:(lia)).
    change (firstn (S k) (x :: recs)) with (x :: firstn k recs).
    change (firstn (S k') (x :: recs)) with (x :: firstn k' recs).
    rewrite !span_cons. lia.
Qed.

Lemma span_firstn_le (recs : list DecodedInstruction) (k : nat) :
  (span (firstn k recs) <= span recs)%nat.
Proof.
  rewrite <- (firstn_skipn k recs) at 2. rewrite span_app. lia.
Qed.

Lemma laid_from_nth (addr : nat -> Z) (recs : list DecodedInstruction) :
  forall start k r, laid_from addr start recs ->
  nth_error recs k = Some r ->
  address r = addr (start + span (firstn k recs))%nat /\
  (byteWidth r = 1 \/ byteWidth r = 5)%nat.
Proof.
  induction recs as [|x recs IH]; intros start [|k] r Hl Hn; try discriminate.
  - injection Hn as ->. destruct Hl as (Ha & Hw & _).
    unfold span. cbn. rewrite Nat.add_0_r. auto.
  - destruct Hl as (_ & _ & Hl). cbn in Hn.
    destruct (IH _ _ _ Hl Hn) as [Ha Hw]. split; [|assumption].
    rewrite Ha. f_equal.
    change (firstn (S k) (x :: recs)) with (x :: firstn k recs).
    rewrite span_cons. lia.
Qed.

(** Lines laid from cursor 0 with their cursor as address tile the bytes
    they cover. *)
Lemma laid_from_tiling (recs : list DecodedInstruction) :
  laid_from Z.of_nat 0 recs -> tiling recs (span recs).
Proof.
  intros Hl.
  assert (Haddr : forall k r, nth_error recs k = Some r ->
            address r = Z.of_nat (span (firstn k recs)) /\
            (1 <= byteWidth r)%nat).
  { intros k r Hn. destruct (laid_from_nth _ _ _ _ _ Hl Hn) as [Ha Hw].
    split; [exact Ha | lia]. }
  repeat split.
  - intros k r Hn. apply Haddr. assumption.
  - intros k r r' Hn Hn'.
    destruct (Haddr _ _ Hn) as [-> _]. destruct (Haddr _ _ Hn') as [-> _].
    rewrite (span_firstn_succ _ _ _ Hn). lia.
  - intros k k' r r' Hlt Hn Hn'.
    destruct (Haddr _ _ Hn) as [-> Hw]. destruct (Haddr _ _ Hn') as [-> _].
    pose proof (span_firstn_mono recs (S k) k' ltac:(lia)) as Hm.
    rewrite (span_firstn_succ _ _ _ Hn) in Hm. lia.
Qed.

(** Addresses that agree on the covered cursors give the same layout. *)
Lemma laid_from_ext (addr addr' : nat -> Z) (recs : list DecodedInstruction) :
  forall start,
  (forall i, (start <= i < start + span recs)%nat -> addr i = addr' i) ->
  laid_from addr start recs -> laid_from addr' start recs.
Proof.
  induction recs as [|x recs IH]; intros start Hext Hl; [exact I|].
  destruct Hl as (Ha & Hw & Hl). rewrite span_cons in Hext.
  repeat split.
  - rewrite Ha. apply Hext. lia.
  - assumption.
  - apply IH; [|assumption]. intros i Hi. apply Hext. lia.
Qed.

(** ** The immediate-operand guard *)

(** With fewer than three bytes after the opcode the guard [i + 4 >
    code.size()] fires. *)
Lemma Main_body_truncated baseAddress code i b :
  at_index code i = Some b -> 0xB8 <= u8 b <= 0xBF ->
  (length code < i + 4)%nat ->
  Main.body baseAddress code i = Halt UnexpectedEnd.
Proof.
  intros Hb Hop Hlen. unfold Main.body. rewrite Hb.
  replace ((0xB8 <=? u8 b) && (u8 b <=? 0xBF)) with true
    by (symmetry; apply andb_true_iff; split; apply Z.leb_le; lia).
  replace (length code <? i + 4)%nat with true
    by (symmetry; apply Nat.ltb_lt; lia).
  reflexivity.
Qed.

(** With exactly three bytes after the opcode the guard lets the read
    through, and [read32] indexes the vector at its size. *)
Lemma Main_body_guard_gap baseAddress code i b :
  at_index code i = Some b -> 0xB8 <= u8 b <= 0xBF ->
  length code = (i + 4)%nat ->
  Main.body baseAddress code i = Halt OutOfBounds.
Proof.
  intros Hb Hop Hlen. unfold Main.body. rewrite Hb.
  replace ((0xB8 <=? u8 b) && (u8 b <=? 0xBF)) with true
    by (symmetry; apply andb_true_iff; split; apply Z.leb_le; lia).
  replace (length code <? i + 4)%nat with false
    by (symmetry; apply Nat.ltb_ge; lia).
  replace (read32 code (i + 1)) with (@None Z)
    by (symmetry; apply read32_none; lia).
  reflexivity.
Qed.

Lemma Alt_body_truncated code i b :
  at_index code i = Some b -> 0xB8 <= u8 b <= 0xBF ->
  (length code < i + 4)%nat ->
  Alt.body code i = Halt UnexpectedEnd.
Proof.
  intros Hb Hop Hlen. unfold Alt.body. rewrite Hb.
  replace ((0xB8 <=? u8 b) && (u8 b <=? 0xBF)) with true
    by (symmetry; apply andb_true_iff; split; apply Z.leb_le; lia).
  replace (length code <? i + 4)%nat with true
    by (symmetry; apply Nat.ltb_lt; lia).
  reflexivity.
Qed.

Lemma Alt_body_guard_gap code i b :
  at_index code i = Some b -> 0xB8 <= u8 b <= 0xBF ->
  length code = (i + 4)%nat ->
  Alt.body code i = Halt OutOfBounds.
Proof.
  intros Hb Hop Hlen. unfold Alt.body. rewrite Hb.
  replace ((0xB8 <=? u8 b) && (u8 b <=? 0xBF)) with true
    by (symmetry; apply andb_true_iff; split; apply Z.leb_le; lia).
  replace (length code <? i + 4)%nat with false
    by (symmetry; apply Nat.ltb_ge; lia).
  replace (read32 code (i + 1)) with (@None Z)
    by (symmetry; apply read32_none; lia).
  reflexivity.
Qed.

(** The opcode alone is reported as an unexpected end, with no line. *)
Example disassemble_lone_opcode :
  Main.disassemble [xb8] 0 = ([], UnexpectedEnd) /\
  Alt.disassemble [xb8] = ([], UnexpectedEnd).
Proof. split; vm_compute; reflexivity. Qed.

(** The listing of the stand-alone decoder as it is printed. *)
Example listing_printed :
  map render (fst (Alt.disassemble [xff; xc3; xbf; xef; xbe; xad; xde; x05]))
  = ["0000: db 0xff"; "0001: ret"; "0002: mov edi, 0xdeadbeef";
     "0007: db 0x05"].
Proof. vm_compute. reflexivity. Qed.

Example disassemble_unknown_byte :
  Main.disassemble [xff] 0 = ([mkInstr 0 "db" "0xff" 1], Finished).
Proof. vm_compute. reflexivity. Qed.

(** C1: a load-immediate opcode followed by fewer than four bytes should
    end the decode with the unexpected-end report.  With exactly three
    bytes after the opcode both decoders instead let the read through:
    decoding [B8 01 02 03] leaves the loop by an index outside the vector,
    not by the unexpected-end report. *)
Theorem disassemble_three_operand_bytes :
  Main.disassemble [xb8; x01; x02; x03] 0 = ([], OutOfBounds) /\
  Alt.disassemble [xb8; x01; x02; x03] = ([], OutOfBounds).
Proof. split; vm_compute; reflexivity. Qed.

(** C3: the four-byte read should only happen after a length check that
    puts its four indices inside the vector.  At cursor 1 of
    [90 BF AA BB CC] the check passes (5 < 1 + 4 is false), [read32] is
    called at index 2 and its last index, 5, is the size of the vector:
    the read is outside the buffer. *)
Theorem read32_reached_past_the_end :
  let code := [x90; xbf; xaa; xbb; xcc] in
  (length code <? 1 + 4)%nat = false /\
  at_index code (1 + 1 + 3) = None /\
  read32 code (1 + 1) = None /\
  Main.body 0 code 1 = Halt OutOfBounds /\
  Alt.body code 1 = Halt OutOfBounds.
Proof. cbv zeta. repeat split; vm_compute; reflexivity. Qed.

(** C4: at a cursor holding a byte [b] in [B8, BF] with at least four bytes
    after it, the 64-bit decoder emits one line: mnemonic mov, the register
    numbered [b - B8] in rax, rcx, rdx, rbx, rsp, rbp, rsi, rdi, the
    little-endian unsigned 32-bit value of the next four bytes as
    immediate, width 5, and the cursor moves on by 5.  Decoding
    [B8 01 00 00 00 90] gives exactly mov rax, 0x1 at address 0 with width
    5 and nop at address 5. *)
Theorem mov_imm32_decoded (code : list byte) (baseAddress : Z) (i : nat)
    (b b1 b2 b3 b4 : byte) :
  at_index code i = Some b ->
  0xB8 <= u8 b <= 0xBF ->
  at_index code (i + 1) = Some b1 ->
  at_index code (i + 2) = Some b2 ->
  at_index code (i + 3) = Some b3 ->
  at_index code (i + 4) = Some b4 ->
  Main.body baseAddress code i =
    Emit (mkInstr (wrap64 (baseAddress + Z.of_nat i)) "mov"
            (nth (Z.to_nat (u8 b - 0xB8))
               ["rax"; "rcx"; "rdx"; "rbx"; "rsp"; "rbp"; "rsi"; "rdi"] ""
             ++ ", 0x" ++ hex (le32 b1 b2 b3 b4))
            5)
         (i + 5) /\
  Main.disassemble [xb8; x01; x00; x00; x00; x90] 0 =
    ([mkInstr 0 "mov" "rax, 0x1" 5; mkInstr 5 "nop" "" 1], Finished).
Proof.
  intros Hb Hop H1 H2 H3 H4. split; [|vm_compute; reflexivity].
  unfold Main.body. rewrite Hb.
  replace ((0xB8 <=? u8 b) && (u8 b <=? 0xBF)) with true
    by (symmetry; apply andb_true_iff; split; apply Z.leb_le; lia).
  apply at_index_lt in H4 as Hlen.
  replace (length code <? i + 4)%nat with false
    by (symmetry; apply Nat.ltb_ge; lia).
  replace (i + 2)%nat with (i + 1 + 1)%nat in H2 by lia.
  replace (i + 3)%nat with (i + 1 + 2)%nat in H3 by lia.
  replace (i + 4)%nat with (i + 1 + 3)%nat in H4 by lia.
  rewrite (read32_value _ _ _ _ _ _ H1 H2 H3 H4).
  reflexivity.
Qed.

Lemma mov_imm32_decoded_witness :
  Main.body 0 [xb8; x01; x00; x00; x00; x90] 0 =
    Emit (mkInstr 0 "mov" "rax, 0x1" 5) 5.
Proof.
  refine (proj1 (mov_imm32_decoded [xb8; x01; x00; x00; x00; x90] 0 0
                   xb8 x01 x00 x00 x00 _ _ _ _ _ _)).
  - reflexivity.
  - vm_compute. split; discriminate.
  - reflexivity.
  - reflexivity.
  - reflexivity.
  - reflexivity.
Defined.

(** ** Termination and tiling *)

(** C9: decoding terminates.  Both loops are total functions, defined by
    well-founded recursion on the bytes left after the cursor.  Every
    iteration that emits a line moves the cursor forward by 1 or by 5 and
    not beyond the length of the input; started at cursor 0, the loop is
    left with the cursor equal to the bytes covered by the lines, either at
    the length of the input (normal end) or before it (an abort). *)
Theorem decode_terminates (code : list byte) (baseAddress : Z) :
  (forall i r j, Main.body baseAddress code i = Emit r j ->
     (j = i + 1 \/ j = i + 5)%nat /\ (i < j <= length code)%nat) /\
  (forall i r j, Alt.body code i = Emit r j ->
     (j = i + 1 \/ j = i + 5)%nat /\ (i < j <= length code)%nat) /\
  (let e := Main.decode_from baseAddress code 0 [] in
   Main.disassemble code baseAddress = (lines e, stop e) /\
   cursor e = span (lines e) /\
   (stop e = Finished /\ cursor e = length code \/
    stop e <> Finished /\ (cursor e < length code)%nat)) /\
  (let e := Alt.decode_from code 0 [] in
   Alt.disassemble code = (lines e, stop e) /\
   cursor e = span (lines e) /\
   (stop e = Finished /\ cursor e = length code \/
    stop e <> Finished /\ (cursor e < length code)%nat)).
Proof.
  split; [|split; [|split]].
  - intros i r j H.
    destruct (Main_body_emit _ _ _ _ _ H) as (_ & Hj & Hw & Hle). lia.
  - intros i r j H.
    destruct (Alt_body_emit _ _ _ _ H) as (_ & Hj & Hw & Hle). lia.
  - destruct (Main_exit baseAddress code) as (_ & Hcur & Hle & Hs).
    cbv zeta. split; [reflexivity|]. split; [assumption|].
    destruct (Nat.eq_dec (cursor (Main.decode_from baseAddress code 0 []))
                (length code)) as [E|E].
    + left. split; [apply Hs|]; assumption.
    + right. split; [intros H; apply E, Hs, H | lia].
  - destruct (Alt_exit code) as (_ & Hcur & Hle & Hs).
    cbv zeta. split; [reflexivity|]. split; [assumption|].
    destruct (Nat.eq_dec (cursor (Alt.decode_from code 0 []))
                (length code)) as [E|E].
    + left. split; [apply Hs|]; assumption.
    + right. split; [intros H; apply E, Hs, H | lia].
Qed.

Lemma decode_terminates_witness :
  Main.body 0 [xb8; x01; x00; x00; x00; x90] 0
    = Emit (mkInstr 0 "mov" "rax, 0x1" 5) 5 /\
  (5 = 0 + 1 \/ 5 = 0 + 5)%nat /\
  (0 < 5 <= length [xb8; x01; x00; x00; x00; x90])%nat.
Proof.
  assert (H : Main.body 0 [xb8; x01; x00; x00; x00; x90] 0
              = Emit (mkInstr 0 "mov" "rax, 0x1" 5) 5)
    by (vm_compute; reflexivity).
  split; [exact H|].
  exact (proj1 (decode_terminates [xb8; x01; x00; x00; x00; x90] 0) _ _ _ H).
Defined.

(** C10: when a decode ends normally, its lines tile the input: each
    line's address is the sum of the widths of the lines before it, each
    line starts where the previous one ends, addresses grow strictly, and
    the widths add up to the length of the input.  The 64-bit decoder is
    run with base address 0; the input is a vector, whose size fits 64
    bits.  A run that leaves the loop by [UnexpectedEnd] or [OutOfBounds]
    is not a normal end. *)
Theorem decode_tiles_input (code : list byte) :
  Z.of_nat (length code) < 2 ^ 64 ->
  (forall recs, Main.disassemble code 0 = (recs, Finished) ->
     tiling recs (length code)) /\
  (forall recs, Alt.disassemble code = (recs, Finished) ->
     tiling recs (length code)).
Proof.
  intros Hsize. split; intros recs H.
  - destruct (Main_exit 0 code) as (Hl & Hcur & Hle & Hs).
    unfold Main.disassemble in H. cbv zeta in H, Hl, Hcur, Hle, Hs.
    injection H as Hlines Hstop. apply Hs in Hstop.
    rewrite Hlines in *. rewrite Hstop in Hcur. rewrite Hcur.
    apply laid_from_tiling.
    apply (laid_from_ext (fun i => wrap64 (0 + Z.of_nat i))); [|assumption].
    intros i Hi. unfold wrap64. rewrite Z.add_0_l.
    apply Z.mod_small. lia.
  - destruct (Alt_exit code) as (Hl & Hcur & Hle & Hs).
    unfold Alt.disassemble in H. cbv zeta in H, Hl, Hcur, Hle, Hs.
    injection H as Hlines Hstop. apply Hs in Hstop.
    rewrite Hlines in *. rewrite Hstop in Hcur. rewrite Hcur.
    apply laid_from_tiling. assumption.
Qed.

Lemma decode_tiles_input_witness :
  tiling [mkInstr 0 "mov" "rax, 0x1" 5; mkInstr 5 "nop" "" 1] 6.
Proof.
  assert (Hsize : Z.of_nat (length [xb8; x01; x00; x00; x00; x90]) < 2 ^ 64)
    by (vm_compute; reflexivity).
  apply (proj1 (decode_tiles_input [xb8; x01; x00; x00; x00; x90] Hsize)).
  vm_compute. reflexivity.
Defined.

(** ** Reads through overlaid structures *)

Lemma at_offset_inv (data : list byte) (off : Z) (b : byte) :
  at_offset data off = Some b -> 0 <= off < Z.of_nat (length data).
Proof.
  unfold at_offset.
  destruct ((0 <=? off) && (off <? Z.of_nat (length data))) eqn:E;
    [|discriminate].
  apply andb_true_iff in E. destruct E as [E1 E2].
  apply Z.leb_le in E1. apply Z.ltb_lt in E2. intros _. lia.
Qed.

Lemma at_offset_some (data : list byte) (off : Z) :
  0 <= off < Z.of_nat (length data) -> exists b, at_offset data off = Some b.
Proof.
  intros H. unfold at_offset.
  replace ((0 <=? off) && (off <? Z.of_nat (length data))) with true
    by (symmetry; apply andb_true_iff; split;
        [apply Z.leb_le | apply Z.ltb_lt]; lia).
  apply at_index_some. lia.
Qed.

Lemma at_offset_skipn (data : list byte) (off : Z) :
  0 <= off -> at_offset data off = hd_error (skipn (Z.to_nat off) data).
Proof.
  intros H. unfold at_offset. rewrite hd_error_skipn.
  destruct (off <? Z.of_nat (length data)) eqn:E.
  - replace (0 <=? off) with true by (symmetry; apply Z.leb_le; lia).
    reflexivity.
  - rewrite andb_false_r. symmetry. apply nth_error_None.
    apply Z.ltb_ge in E. lia.
Qed.

Lemma load_le_some (n : nat) : forall data off,
  0 <= off -> off + Z.of_nat n <= Z.of_nat (length data) ->
  exists v, load_le n data off = Some v.
Proof.
  induction n as [|n IH]; intros data off H0 H1; cbn [load_le].
  - eauto.
  - destruct (at_offset_some data off) as [b ->]; [lia|].
    destruct (IH data (off + 1)) as [hi ->]; [lia | lia |].
    cbn. eauto.
Qed.

Lemma load_le_inv (n : nat) : forall data off v,
  load_le (S n) data off = Some v ->
  0 <= off /\ off + Z.of_nat (S n) <= Z.of_nat (length data).
Proof.
  induction n as [|n IH]; intros data off v H;
    change (load_le (S ?m) data off)
      with (b <- at_offset data off ;;
            hi <- load_le m data (off + 1) ;; Some (u8 b + 256 * hi)) in H;
    destruct (at_offset data off) as [b|] eqn:E; try discriminate;
    apply at_offset_inv in E; cbn [bind] in H.
  - lia.
  - destruct (load_le (S n) data (off + 1)) as [hi|] eqn:E1; [|discriminate].
    apply IH in E1. lia.
Qed.

Lemma load_bytes_some (n : nat) : forall data off,
  0 <= off -> off + Z.of_nat n <= Z.of_nat (length data) ->
  exists v, load_bytes n data off = Some v.
Proof.
  induction n as [|n IH]; intros data off H0 H1; cbn [load_bytes].
  - eauto.
  - destruct (at_offset_some data off) as [b ->]; [lia|].
    destruct (IH data (off + 1)) as [hi ->]; [lia | lia |].
    cbn. eauto.
Qed.

(** Inside [n] bytes of data every field read at a constant offset below
    [n] succeeds. *)
Ltac solve_loads :=
  repeat match goal with
         | |- context [load_bytes ?n ?d ?o] =>
             let v := fresh "v" in
             destruct (load_bytes_some n d o) as [v ->];
             [lia | cbn; lia | cbn [bind]]
         | |- context [load_le ?n ?d ?o] =>
             let v := fresh "v" in
             destruct (load_le_some n d o) as [v ->];
             [lia | cbn; lia | cbn [bind]]
         end.

Lemma overlay_Elf32_Ehdr_some (data : list byte) :
  (sizeof_Elf32_Ehdr <= length data)%nat ->
  exists hdr, overlay_Elf32_Ehdr data 0 = Some hdr.
Proof.
  unfold sizeof_Elf32_Ehdr. intros H.
  unfold overlay_Elf32_Ehdr, load16, load32, load64.
  solve_loads. eauto.
Qed.

Lemma overlay_Elf64_Ehdr_some (data : list byte) :
  (sizeof_Elf64_Ehdr <= length data)%nat ->
  exists hdr, overlay_Elf64_Ehdr data 0 = Some hdr.
Proof.
  unfold sizeof_Elf64_Ehdr. intros H.
  unfold overlay_Elf64_Ehdr, load16, load32, load64.
  solve_loads. eauto.
Qed.

Lemma overlay_Elf64_Shdr_some (data : list byte) (p : Z) :
  0 <= p -> p + sizeof_Elf64_Shdr <= Z.of_nat (length data) ->
  exists sh, overlay_Elf64_Shdr data p = Some sh.
Proof.
  unfold sizeof_Elf64_Shdr. intros H0 H.
  unfold overlay_Elf64_Shdr, load16, load32, load64.
  solve_loads. eauto.
Qed.

(** ** [isELF] and [printELFHeader] *)

(** The size check of [isELF] covers its four reads. *)
Lemma isELF_some (data : list byte) : exists b, isELF data = Some b.
Proof.
  unfold isELF. destruct (length data <? 4)%nat eqn:E; [eauto|].
  apply Nat.ltb_ge in E. unfold magic_and, EI_MAG0, EI_MAG1, EI_MAG2, EI_MAG3.
  destruct (at_index_some data 0) as [b0 ->]; [lia|]. cbn [bind].
  destruct (u8 b0 =? ELFMAG0); [|eauto].
  destruct (at_index_some data 1) as [b1 ->]; [lia|]. cbn [bind].
  destruct (u8 b1 =? ELFMAG1); [|eauto].
  destruct (at_index_some data 2) as [b2 ->]; [lia|]. cbn [bind].
  destruct (u8 b2 =? ELFMAG2); [|eauto].
  destruct (at_index_some data 3) as [b3 ->]; [lia|]. cbn [bind].
  destruct (u8 b3 =? ELFMAG3); eauto.
Qed.

Lemma isELF_true_length (data : list byte) :
  isELF data = Some true -> (4 <= length data)%nat.
Proof.
  unfold isELF. destruct (length data <? 4)%nat eqn:E; [discriminate|].
  apply Nat.ltb_ge in E. intros _. assumption.
Qed.

(** A recognized file of exactly four bytes has no class byte: the read
    of [data[EI_CLASS]] is outside the vector. *)
Lemma printELFHeader_class_missing (data : list byte) :
  isELF data = Some true -> length data = 4%nat ->
  printELFHeader data = None.
Proof.
  intros He Hl. unfold printELFHeader. rewrite He. cbn [bind negb].
  rewrite (at_index_none data EI_CLASS) by (unfold EI_CLASS; lia).
  reflexivity.
Qed.

(** From five bytes on, the class byte is there and a header shorter than
    the structure of its class is reported as too small. *)
Lemma printELFHeader_too_small (data : list byte) (c : byte) :
  isELF data = Some true -> at_index data EI_CLASS = Some c ->
  (u8 c = 1 -> (length data < sizeof_Elf32_Ehdr)%nat ->
   printELFHeader data = Some TooSmallELF32) /\
  (u8 c = 2 -> (length data < sizeof_Elf64_Ehdr)%nat ->
   printELFHeader data = Some TooSmallELF64).
Proof.
  intros He Hc. unfold printELFHeader. rewrite He, Hc. cbn [bind negb].
  split; intros -> Hl.
  - cbn [Z.eqb Pos.eqb].
    replace (length data <? sizeof_Elf32_Ehdr)%nat with true
      by (symmetry; apply Nat.ltb_lt; assumption).
    reflexivity.
  - cbn [Z.eqb Pos.eqb].
    replace (length data <? sizeof_Elf64_Ehdr)%nat with true
      by (symmetry; apply Nat.ltb_lt; assumption).
    reflexivity.
Qed.

(** With a class byte to read, [printELFHeader] stays inside the vector. *)
Lemma printELFHeader_some (data : list byte) :
  (5 <= length data)%nat -> exists r, printELFHeader data = Some r.
Proof.
  intros Hl. unfold printELFHeader.
  destruct (isELF_some data) as [elf ->]. cbn [bind].
  destruct elf; cbn [negb]; [|eauto].
  destruct (at_index_some data EI_CLASS) as [c ->];
    [unfold EI_CLASS; lia|]. cbn [bind].
  destruct (u8 c =? 1).
  - destruct (length data <? sizeof_Elf32_Ehdr)%nat eqn:E; [eauto|].
    apply Nat.ltb_ge in E.
    destruct (overlay_Elf32_Ehdr_some data E) as [hdr ->]. cbn. eauto.
  - destruct (u8 c =? 2); [|eauto].
    destruct (length data <? sizeof_Elf64_Ehdr)%nat eqn:E; [eauto|].
    apply Nat.ltb_ge in E.
    destruct (overlay_Elf64_Ehdr_some data E) as [hdr ->]. cbn. eauto.
Qed.

(** C5: a sequence that passes the magic check should be reported as too
    short, without any read at or past its end, down to the four-byte
    input.  On the four magic bytes alone [isELF] accepts, and the class
    byte is then read at index 4, the size of the vector: the header
    parser leaves the buffer instead of reporting a short file. *)
Theorem printELFHeader_four_magic_bytes :
  isELF [x7f; x45; x4c; x46] = Some true /\
  at_index [x7f; x45; x4c; x46] EI_CLASS = None /\
  printELFHeader [x7f; x45; x4c; x46] = None.
Proof. repeat split; vm_compute; reflexivity. Qed.

(** ** Name comparison *)

Lemma skipn_succ_tail (data : list byte) (n : nat) (c : byte) (l : list byte) :
  skipn n data = c :: l -> skipn (S n) data = l.
Proof.
  intros H. change (S n) with (1 + n)%nat.
  rewrite <- skipn_skipn, H. reflexivity.
Qed.

Lemma strcmp_eq_list (s : list byte) : forall data pos,
  0 <= pos ->
  strcmp_eq data pos s = strcmp_list (skipn (Z.to_nat pos) data) s.
Proof.
  induction s as [|k s IH]; intros data pos Hpos; cbn [strcmp_eq];
    rewrite at_offset_skipn by assumption;
    destruct (skipn (Z.to_nat pos) data) as [|c l] eqn:E; try reflexivity.
  cbn [hd_error bind strcmp_list].
  destruct (Byte.eqb c k); [|reflexivity].
  rewrite IH by lia.
  replace (Z.to_nat (pos + 1)) with (S (Z.to_nat pos)) by lia.
  rewrite (skipn_succ_tail _ _ _ _ E). reflexivity.
Qed.

Lemma strcmp_eq_inv_pos (data : list byte) (pos : Z) (s : list byte) (r : bool) :
  strcmp_eq data pos s = Some r -> 0 <= pos < Z.of_nat (length data).
Proof.
  destruct s; cbn [strcmp_eq]; destruct (at_offset data pos) eqn:E;
    try discriminate; intros _; eapply at_offset_inv; eassumption.
Qed.

Lemma byte_eqb_eq (a b : byte) : Byte.eqb a b = true <-> a = b.
Proof.
  split; [apply Byte.byte_dec_bl | apply Byte.byte_dec_lb].
Qed.

Lemma byte_eqb_neq (a b : byte) : a <> b -> Byte.eqb a b = false.
Proof.
  intros H. destruct (Byte.eqb a b) eqn:E; [|reflexivity].
  apply byte_eqb_eq in E. contradiction.
Qed.

(** A comparison that succeeds has read the literal and its terminator. *)
Lemma strcmp_list_true (s : list byte) : forall l,
  Forall (fun b => b <> x00) s ->
  strcmp_list l s = Some true -> cstring l = Some s.
Proof.
  induction s as [|k s IH]; intros [|c l] Hnz H; try discriminate;
    cbn [strcmp_list] in H; cbn [cstring].
  - injection H as H. rewrite u8_zero in H. rewrite H. reflexivity.
  - destruct (Byte.eqb c k) eqn:E; [|discriminate].
    apply byte_eqb_eq in E. subst c. inversion Hnz as [|? ? Hk Hs]; subst.
    rewrite (byte_eqb_neq _ _ Hk), (IH l Hs H). reflexivity.
Qed.

(** On a resolved name the comparison is defined and decides equality
    with the literal. *)
Lemma strcmp_list_cstring (l : list byte) : forall name s,
  Forall (fun b => b <> x00) s ->
  cstring l = Some name ->
  (name = s -> strcmp_list l s = Some true) /\
  (name <> s -> strcmp_list l s = Some false).
Proof.
  induction l as [|c l IH]; intros name s Hnz H; [discriminate|].
  cbn [cstring] in H. destruct (Byte.eqb c x00) eqn:E0.
  - injection H as <-. apply byte_eqb_eq in E0. subst c.
    destruct s as [|k s]; cbn [strcmp_list].
    + split; [reflexivity | congruence].
    + inversion Hnz as [|? ? Hk Hs]; subst.
      rewrite (byte_eqb_neq x00 k) by congruence.
      split; [discriminate | reflexivity].
  - destruct (cstring l) as [name'|] eqn:El; [|discriminate].
    injection H as <-.
    destruct s as [|k s]; cbn [strcmp_list].
    + rewrite u8_zero, E0. split; [discriminate | reflexivity].
    + inversion Hnz as [|? ? Hk Hs]; subst.
      destruct (Byte.eqb c k) eqn:E.
      * apply byte_eqb_eq in E. subst c.
        destruct (IH name' s Hs eq_refl) as [Ht Hf].
        split; intros Hn; [apply Ht | apply Hf]; congruence.
      * split; [|reflexivity]. intros Hn. injection Hn as -> _.
        rewrite (proj2 (byte_eqb_eq k k) eq_refl) in E. discriminate.
Qed.

Lemma cstring_length (l : list byte) : forall s,
  cstring l = Some s -> (length s < length l)%nat.
Proof.
  induction l as [|c l IH]; intros s H; [discriminate|].
  cbn [cstring] in H. destruct (Byte.eqb c x00).
  - injection H as <-. cbn. lia.
  - destruct (cstring l) as [s'|]; [|discriminate].
    injection H as <-. specialize (IH s' eq_refl). cbn. lia.
Qed.

Lemma cstring_at_inv (data : list byte) (pos : Z) (s : list byte) :
  cstring_at data pos = Some s ->
  0 <= pos /\ pos + Z.of_nat (length s) < Z.of_nat (length data) /\
  cstring (skipn (Z.to_nat pos) data) = Some s.
Proof.
  unfold cstring_at.
  destruct ((0 <=? pos) && (pos <? Z.of_nat (length data))) eqn:E;
    [|discriminate].
  apply andb_true_iff in E. destruct E as [E1 E2].
  apply Z.leb_le in E1. apply Z.ltb_lt in E2. intros H.
  pose proof (cstring_length _ _ H) as Hl. rewrite length_skipn in Hl.
  repeat split; [assumption | lia | assumption].
Qed.

Lemma strcmp_eq_true_iff (data : list byte) (pos : Z) (s : list byte) :
  Forall (fun b => b <> x00) s ->
  strcmp_eq data pos s = Some true <-> cstring_at data pos = Some s.
Proof.
  intros Hnz. split; intros H.
  - pose proof (strcmp_eq_inv_pos _ _ _ _ H) as Hpos.
    rewrite strcmp_eq_list in H by lia.
    unfold cstring_at.
    replace ((0 <=? pos) && (pos <? Z.of_nat (length data))) with true
      by (symmetry; apply andb_true_iff; split;
          [apply Z.leb_le | apply Z.ltb_lt]; lia).
    apply strcmp_list_true; assumption.
  - destruct (cstring_at_inv _ _ _ H) as (Hpos & _ & Hc).
    rewrite strcmp_eq_list by assumption.
    apply (strcmp_list_cstring _ _ _ Hnz Hc). reflexivity.
Qed.

Lemma strcmp_eq_false (data : list byte) (pos : Z) (name s : list byte) :
  Forall (fun b => b <> x00) s ->
  cstring_at data pos = Some name -> name <> s ->
  strcmp_eq data pos s = Some false.
Proof.
  intros Hnz H Hne.
  destruct (cstring_at_inv _ _ _ H) as (Hpos & _ & Hc).
  rewrite strcmp_eq_list by assumption.
  apply (strcmp_list_cstring _ _ _ Hnz Hc). assumption.
Qed.

Lemma dot_text_nonzero : Forall (fun b => b <> x00) dot_text.
Proof. repeat constructor; discriminate. Qed.

(** ** The walk over the section table *)

Section Walk.

Variable fileData : list byte.
Variable shoff pool : Z.

(** What a defined result of the scan says about the entries it read. *)
Lemma scan_sections_inv (n : nat) : forall k r,
  scan_sections fileData shoff pool n k = Some r ->
  (exists i name off size,
     k <= i < k + Z.of_nat n /\ r = Found off size /\
     load32 fileData (wrap64 (shoff + sizeof_Elf64_Shdr * i)) = Some name /\
     strcmp_eq fileData (wrap64 (pool + name)) dot_text = Some true /\
     load64 fileData (wrap64 (wrap64 (shoff + sizeof_Elf64_Shdr * i) + 24)) = Some off /\
     load64 fileData (wrap64 (wrap64 (shoff + sizeof_Elf64_Shdr * i) + 32)) = Some size /\
     (forall j, k <= j < i -> skipped fileData shoff pool j)) \/
  (r = NotFound NoTextSection /\
   forall j, k <= j < k + Z.of_nat n -> skipped fileData shoff pool j).
Proof.
  induction n as [|n IH]; intros k r H; cbn [scan_sections] in H.
  - injection H as <-. right. split; [reflexivity|]. intros j Hj. lia.
  - destruct (load32 fileData (wrap64 (shoff + sizeof_Elf64_Shdr * k)))
      as [name|] eqn:En; [|discriminate]. cbn [bind] in H.
    destruct (strcmp_eq fileData (wrap64 (pool + name)) dot_text)
      as [same|] eqn:Es; [|discriminate]. cbn [bind] in H.
    destruct same.
    + destruct (load64 fileData (wrap64 (wrap64 (shoff + sizeof_Elf64_Shdr * k) + 24)))
        as [off|] eqn:Eo; [|discriminate]. cbn [bind] in H.
      destruct (load64 fileData (wrap64 (wrap64 (shoff + sizeof_Elf64_Shdr * k) + 32)))
        as [size|] eqn:Ez; [|discriminate]. cbn [bind] in H.
      injection H as <-. left. exists k, name, off, size.
      repeat split; try assumption; lia.
    + assert (Hk : skipped fileData shoff pool k) by (exists name; auto).
      destruct (IH _ _ H)
        as [(i & nm & off & size & Hi & Hr & H1 & H2 & H3 & H4 & Hsk)
           | (Hr & Hsk)].
      * left. exists i, nm, off, size.
        repeat split; try assumption; try lia.
        intros j Hj. destruct (Z.eq_dec j k) as [->|]; [assumption|].
        apply Hsk. lia.
      * right. split; [assumption|].
        intros j Hj. destruct (Z.eq_dec j k) as [->|]; [assumption|].
        apply Hsk. lia.
Qed.

(** The scan stops at the first entry whose name compares equal. *)
Lemma scan_sections_first (n : nat) : forall k i name off size,
  k <= i < k + Z.of_nat n ->
  (forall j, k <= j < i -> skipped fileData shoff pool j) ->
  load32 fileData (wrap64 (shoff + sizeof_Elf64_Shdr * i)) = Some name ->
  strcmp_eq fileData (wrap64 (pool + name)) dot_text = Some true ->
  load64 fileData (wrap64 (wrap64 (shoff + sizeof_Elf64_Shdr * i) + 24)) = Some off ->
  load64 fileData (wrap64 (wrap64 (shoff + sizeof_Elf64_Shdr * i) + 32)) = Some size ->
  scan_sections fileData shoff pool n k = Some (Found off size).
Proof.
  induction n as [|n IH]; intros k i name off size Hi Hsk Hn Hs Ho Hz;
    [lia|].
  cbn [scan_sections].
  destruct (Z.eq_dec i k) as [->|Hne].
  - rewrite Hn. cbn [bind]. rewrite Hs. cbn [bind]. rewrite Ho, Hz.
    reflexivity.
  - destruct (Hsk k) as (nm & Hl & Hc); [lia|].
    rewrite Hl. cbn [bind]. rewrite Hc. cbn [bind].
    apply (IH (k + 1) i name off size); try assumption; [lia|].
    intros j Hj. apply Hsk. lia.
Qed.

End Walk.

Lemma findTextSection_walk (fileData : list byte) (elfHeader : Elf64_Ehdr) :
  ~ (e_shoff elfHeader = 0 \/ e_shnum elfHeader = 0) ->
  e_shstrndx elfHeader < e_shnum elfHeader ->
  findTextSection fileData elfHeader =
  (pool <- name_pool fileData elfHeader ;;
   scan_sections fileData (e_shoff elfHeader) pool
     (Z.to_nat (e_shnum elfHeader)) 0).
Proof.
  intros H1 H2. unfold findTextSection, name_pool, section_entry_at.
  replace ((e_shoff elfHeader =? 0) || (e_shnum elfHeader =? 0)) with false
    by (symmetry; apply orb_false_iff; split; apply Z.eqb_neq; tauto).
  replace (e_shnum elfHeader <=? e_shstrndx elfHeader) with false
    by (symmetry; apply Z.leb_gt; assumption).
  destruct (overlay_Elf64_Shdr fileData
              (wrap64 (e_shoff elfHeader
                       + sizeof_Elf64_Shdr * e_shstrndx elfHeader)));
    reflexivity.
Qed.

Lemma findTextSection_no_table (fileData : list byte) (elfHeader : Elf64_Ehdr) :
  e_shoff elfHeader = 0 \/ e_shnum elfHeader = 0 ->
  findTextSection fileData elfHeader = Some (NotFound NoSectionTable).
Proof.
  intros H. unfold findTextSection.
  replace ((e_shoff elfHeader =? 0) || (e_shnum elfHeader =? 0)) with true;
    [reflexivity|].
  symmetry. apply orb_true_iff.
  destruct H as [H|H]; [left|right]; apply Z.eqb_eq; assumption.
Qed.

Lemma findTextSection_bad_index (fileData : list byte) (elfHeader : Elf64_Ehdr) :
  ~ (e_shoff elfHeader = 0 \/ e_shnum elfHeader = 0) ->
  e_shnum elfHeader <= e_shstrndx elfHeader ->
  findTextSection fileData elfHeader = Some (NotFound InvalidStringTableIndex).
Proof.
  intros H1 H2. unfold findTextSection.
  replace ((e_shoff elfHeader =? 0) || (e_shnum elfHeader =? 0)) with false
    by (symmetry; apply orb_false_iff; split; apply Z.eqb_neq; tauto).
  replace (e_shnum elfHeader <=? e_shstrndx elfHeader) with true
    by (symmetry; apply Z.leb_le; assumption).
  reflexivity.
Qed.

(** ** The lookup through a pointer into the file *)

Lemma overlay_Elf64_Ehdr_fields (data : list byte) (p : Z) (h : Elf64_Ehdr) :
  overlay_Elf64_Ehdr data p = Some h ->
  load64 data (p + 40) = Some (e_shoff h) /\
  load16 data (p + 60) = Some (e_shnum h).
Proof.
  unfold overlay_Elf64_Ehdr. intros H.
  repeat match type of H with
         | bind ?m _ = Some _ =>
             let E := fresh "E" in
             destruct m eqn:E; [cbn [bind] in H | discriminate]
         end.
  injection H as <-. cbn [e_shoff e_shnum]. split; reflexivity.
Qed.

(** Once the whole header lies in the file, reading its fields one by one
    is the lookup on the overlaid structure. *)
Lemma findTextSection_in_file_overlay (data : list byte) (p : Z)
    (h : Elf64_Ehdr) :
  overlay_Elf64_Ehdr data p = Some h ->
  findTextSection_in_file data p = findTextSection data h.
Proof.
  intros H. destruct (overlay_Elf64_Ehdr_fields _ _ _ H) as [H1 H2].
  unfold findTextSection_in_file. rewrite H1. cbn [bind].
  destruct (e_shoff h =? 0) eqn:E1.
  - apply Z.eqb_eq in E1. symmetry. apply findTextSection_no_table. tauto.
  - rewrite H2. cbn [bind]. destruct (e_shnum h =? 0) eqn:E2.
    + apply Z.eqb_eq in E2. symmetry. apply findTextSection_no_table. tauto.
    + rewrite H. reflexivity.
Qed.

(** A section is only returned after the whole header was read. *)
Lemma findTextSection_in_file_found (data : list byte) (p off size : Z) :
  findTextSection_in_file data p = Some (Found off size) ->
  exists h,
    overlay_Elf64_Ehdr data p = Some h /\
    findTextSection data h = Some (Found off size).
Proof.
  unfold findTextSection_in_file. intros H.
  destruct (load64 data (p + 40)) as [shoff|]; [|discriminate].
  cbn [bind] in H. destruct (shoff =? 0); [discriminate|].
  destruct (load16 data (p + 60)) as [shnum|]; [|discriminate].
  cbn [bind] in H. destruct (shnum =? 0); [discriminate|].
  destruct (overlay_Elf64_Ehdr data p) as [h|]; [|discriminate].
  cbn [bind] in H. eauto.
Qed.

(** ** Resolved names and the comparisons of the walk *)

Lemma section_name_inv (fileData : list byte) (elfHeader : Elf64_Ehdr)
    (i : Z) (s : list byte) :
  section_name fileData elfHeader i = Some s ->
  exists pool name,
    name_pool fileData elfHeader = Some pool /\
    load32 fileData (section_entry_at elfHeader i) = Some name /\
    cstring_at fileData (wrap64 (pool + name)) = Some s.
Proof.
  unfold section_name. intros H.
  destruct (name_pool fileData elfHeader) as [pool|]; [|discriminate].
  cbn [bind] in H.
  destruct (load32 fileData (section_entry_at elfHeader i)) as [name|];
    [|discriminate].
  cbn [bind] in H. eauto.
Qed.

Lemma skipped_not_text (fileData : list byte) (elfHeader : Elf64_Ehdr)
    (pool j : Z) :
  name_pool fileData elfHeader = Some pool ->
  skipped fileData (e_shoff elfHeader) pool j ->
  section_name fileData elfHeader j <> Some dot_text.
Proof.
  intros Hp (name & Hl & Hc) H.
  destruct (section_name_inv _ _ _ _ H) as (pool' & name' & Hp' & Hl' & Hs).
  unfold section_entry_at in Hl'.
  assert (pool' = pool) by congruence. assert (name' = name) by congruence.
  subst. apply (strcmp_eq_true_iff _ _ _ dot_text_nonzero) in Hs.
  congruence.
Qed.

Lemma named_skipped (fileData : list byte) (elfHeader : Elf64_Ehdr)
    (pool j : Z) (s : list byte) :
  name_pool fileData elfHeader = Some pool ->
  section_name fileData elfHeader j = Some s -> s <> dot_text ->
  skipped fileData (e_shoff elfHeader) pool j.
Proof.
  intros Hp H Hne.
  destruct (section_name_inv _ _ _ _ H) as (pool' & name & Hp' & Hl & Hs).
  assert (pool' = pool) by congruence. subst.
  exists name. split; [exact Hl|].
  eapply strcmp_eq_false; eauto using dot_text_nonzero.
Qed.

(** ** The claims about the section locator *)

(** C8: on a valid section table the locator returns the file offset and
    size of the first entry, in ascending index order, whose resolved
    zero-terminated name is exactly [.text]; entries of the same name at
    higher indices are never reached. *)
Theorem findTextSection_first_match (fileData : list byte)
    (elfHeader : Elf64_Ehdr) (i : Z) :
  valid_section_table fileData elfHeader ->
  0 <= i < e_shnum elfHeader ->
  section_name fileData elfHeader i = Some dot_text ->
  (forall j, 0 <= j < i ->
     section_name fileData elfHeader j <> Some dot_text) ->
  exists off size,
    section_range fileData elfHeader i = Some (off, size) /\
    findTextSection fileData elfHeader = Some (Found off size).
Proof.
  intros (Hoff & Hnum & Hidx & Hin & Hnames) Hi Hname Hfirst.
  destruct (section_name_inv _ _ _ _ Hname) as (pool & name & Hp & Hl & Hs).
  unfold section_entry_at, sizeof_Elf64_Shdr in *.
  pose proof (wrap64_range (e_shoff elfHeader + 64 * i)) as Hw.
  pose proof (wrap64_le (e_shoff elfHeader + 64 * i) ltac:(lia)) as Hle.
  pose proof (wrap64_range (wrap64 (e_shoff elfHeader + 64 * i) + 24)) as Hw1.
  pose proof (wrap64_le (wrap64 (e_shoff elfHeader + 64 * i) + 24)
                ltac:(lia)) as Hle1.
  pose proof (wrap64_range (wrap64 (e_shoff elfHeader + 64 * i) + 32)) as Hw2.
  pose proof (wrap64_le (wrap64 (e_shoff elfHeader + 64 * i) + 32)
                ltac:(lia)) as Hle2.
  destruct (load_le_some 8 fileData
              (wrap64 (wrap64 (e_shoff elfHeader + 64 * i) + 24)))
    as [off Ho]; [lia | change (Z.of_nat 8) with 8; lia |].
  destruct (load_le_some 8 fileData
              (wrap64 (wrap64 (e_shoff elfHeader + 64 * i) + 32)))
    as [size Hz]; [lia | change (Z.of_nat 8) with 8; lia |].
  exists off, size. split.
  - unfold section_range, section_entry_at, sizeof_Elf64_Shdr, load64.
    rewrite Ho, Hz. reflexivity.
  - rewrite findTextSection_walk by lia. rewrite Hp. cbn [bind].
    apply (scan_sections_first fileData (e_shoff elfHeader) pool
             (Z.to_nat (e_shnum elfHeader)) 0 i name off size);
      try assumption; [lia | |].
    + intros j Hj. destruct (Hnames j) as [s Hsj]; [lia|].
      apply (named_skipped _ _ _ _ s Hp Hsj).
      intros ->. apply (Hfirst j); [lia | assumption].
    + apply (strcmp_eq_true_iff _ _ _ dot_text_nonzero). assumption.
Qed.

Lemma image_two_text_valid :
  valid_section_table image_two_text (ehdr64 64 3 0).
Proof.
  split; [reflexivity|]. split; [reflexivity|].
  split; [split; [discriminate | reflexivity]|].
  split; [discriminate|].
  intros i Hi. cbn in Hi.
  assert (H : i = 0 \/ i = 1 \/ i = 2) by lia.
  destruct H as [-> | [-> | ->]]; eexists; vm_compute; reflexivity.
Defined.

Lemma findTextSection_first_match_witness :
  overlay_Elf64_Ehdr image_two_text 0 = Some (ehdr64 64 3 0) /\
  section_name image_two_text (ehdr64 64 3 0) 1 = Some dot_text /\
  section_name image_two_text (ehdr64 64 3 0) 2 = Some dot_text /\
  findTextSection image_two_text (ehdr64 64 3 0) = Some (Found 269 6).
Proof.
  split; [vm_compute; reflexivity|].
  split; [vm_compute; reflexivity|].
  split; [vm_compute; reflexivity|].
  assert (Hi : 0 <= 1 < e_shnum (ehdr64 64 3 0)) by (cbn; lia).
  assert (Hname : section_name image_two_text (ehdr64 64 3 0) 1
                  = Some dot_text) by (vm_compute; reflexivity).
  assert (Hfirst : forall j, 0 <= j < 1 ->
            section_name image_two_text (ehdr64 64 3 0) j <> Some dot_text).
  { intros j Hj. assert (j = 0) by lia. subst j. vm_compute. discriminate. }
  destruct (findTextSection_first_match image_two_text (ehdr64 64 3 0) 1
              image_two_text_valid Hi Hname Hfirst)
    as (off & size & Hr & Hf).
  vm_compute in Hr. injection Hr as <- <-. exact Hf.
Defined.

(** A defined result of the locator, past its two checks, comes out of the
    walk with the name pool of the string-table entry. *)
Lemma findTextSection_walk_inv (fileData : list byte)
    (elfHeader : Elf64_Ehdr) (r : Located) :
  ~ (e_shoff elfHeader = 0 \/ e_shnum elfHeader = 0) ->
  e_shstrndx elfHeader < e_shnum elfHeader ->
  findTextSection fileData elfHeader = Some r ->
  exists pool,
    name_pool fileData elfHeader = Some pool /\
    scan_sections fileData (e_shoff elfHeader) pool
      (Z.to_nat (e_shnum elfHeader)) 0 = Some r.
Proof.
  intros H1 H2 H. rewrite findTextSection_walk in H by assumption.
  destruct (name_pool fileData elfHeader) as [pool|]; [|discriminate].
  exists pool. split; [reflexivity | exact H].
Qed.

(** On a table whose entries and names lie inside the image the scan is
    defined and ends with a section or with the not-found failure. *)
Lemma scan_sections_defined (fileData : list byte) (shoff pool : Z)
    (n : nat) : forall k,
  (forall j, k <= j < k + Z.of_nat n ->
     (exists name s,
        load32 fileData (wrap64 (shoff + sizeof_Elf64_Shdr * j))
          = Some name /\
        cstring_at fileData (wrap64 (pool + name)) = Some s) /\
     (exists off size,
        load64 fileData
          (wrap64 (wrap64 (shoff + sizeof_Elf64_Shdr * j) + 24)) = Some off /\
        load64 fileData
          (wrap64 (wrap64 (shoff + sizeof_Elf64_Shdr * j) + 32))
          = Some size)) ->
  (exists off size,
     scan_sections fileData shoff pool n k = Some (Found off size)) \/
  scan_sections fileData shoff pool n k = Some (NotFound NoTextSection).
Proof.
  induction n as [|n IH]; intros k Hall; cbn [scan_sections].
  - right. reflexivity.
  - destruct (Hall k ltac:(lia))
      as [(name & s & Hl & Hc) (off & size & Ho & Hz)].
    rewrite Hl. cbn [bind].
    destruct (list_eq_dec Byte.byte_eq_dec s dot_text) as [->|Hne].
    + apply (strcmp_eq_true_iff _ _ _ dot_text_nonzero) in Hc.
      rewrite Hc. cbn [bind]. rewrite Ho, Hz. cbn [bind]. left. eauto.
    + rewrite (strcmp_eq_false _ _ _ _ dot_text_nonzero Hc Hne).
      cbn [bind]. apply IH. intros j Hj. apply Hall. lia.
Qed.

(** On a valid section table the lookup is defined. *)
Lemma findTextSection_valid_defined (fileData : list byte)
    (elfHeader : Elf64_Ehdr) :
  valid_section_table fileData elfHeader ->
  (exists off size,
     findTextSection fileData elfHeader = Some (Found off size)) \/
  findTextSection fileData elfHeader = Some (NotFound NoTextSection).
Proof.
  intros (Hoff & Hnum & Hidx & Hin & Hnames).
  rewrite findTextSection_walk by lia.
  destruct (Hnames 0 ltac:(lia)) as [s0 Hs0].
  destruct (section_name_inv _ _ _ _ Hs0) as (pool & _ & Hp & _).
  rewrite Hp. cbn [bind].
  apply scan_sections_defined. intros j Hj.
  unfold sizeof_Elf64_Shdr in *. split.
  - destruct (Hnames j ltac:(lia)) as [s Hs].
    destruct (section_name_inv _ _ _ _ Hs) as (pool' & name & Hp' & Hl & Hc).
    assert (pool' = pool) by congruence. subst pool'.
    exists name, s. split; assumption.
  - pose proof (wrap64_range (e_shoff elfHeader + 64 * j)) as Hw.
    pose proof (wrap64_le (e_shoff elfHeader + 64 * j) ltac:(lia)) as Hle.
    pose proof (wrap64_range (wrap64 (e_shoff elfHeader + 64 * j) + 24))
      as Hw1.
    pose proof (wrap64_le (wrap64 (e_shoff elfHeader + 64 * j) + 24)
                  ltac:(lia)) as Hle1.
    pose proof (wrap64_range (wrap64 (e_shoff elfHeader + 64 * j) + 32))
      as Hw2.
    pose proof (wrap64_le (wrap64 (e_shoff elfHeader + 64 * j) + 32)
                  ltac:(lia)) as Hle2.
    destruct (load_le_some 8 fileData
                (wrap64 (wrap64 (e_shoff elfHeader + 64 * j) + 24)))
      as [off Ho]; [lia | change (Z.of_nat 8) with 8; lia |].
    destruct (load_le_some 8 fileData
                (wrap64 (wrap64 (e_shoff elfHeader + 64 * j) + 32)))
      as [size Hz]; [lia | change (Z.of_nat 8) with 8; lia |].
    exists off, size. split; assumption.
Qed.

(** What the locator has read when it returns a section. *)
Lemma findTextSection_found_first (fileData : list byte)
    (elfHeader : Elf64_Ehdr) (off size : Z) :
  ~ (e_shoff elfHeader = 0 \/ e_shnum elfHeader = 0) ->
  e_shstrndx elfHeader < e_shnum elfHeader ->
  findTextSection fileData elfHeader = Some (Found off size) ->
  exists i,
    0 <= i < e_shnum elfHeader /\
    section_name fileData elfHeader i = Some dot_text /\
    (forall j, 0 <= j < i ->
       section_name fileData elfHeader j <> Some dot_text) /\
    section_range fileData elfHeader i = Some (off, size).
Proof.
  intros Hno Hidx H.
  destruct (findTextSection_walk_inv _ _ _ Hno Hidx H) as (pool & Hp & Hscan).
  destruct (scan_sections_inv _ _ _ _ _ _ Hscan)
    as [(i & name & off' & size' & Hi & Hr & Hl & Hc & Ho & Hz & Hbelow)
       | (Hr & _)]; [|discriminate].
  injection Hr as <- <-. exists i.
  split; [lia|]. split; [|split].
  - unfold section_name, section_entry_at. rewrite Hp. cbn [bind].
    rewrite Hl. cbn [bind].
    apply (strcmp_eq_true_iff _ _ _ dot_text_nonzero). assumption.
  - intros j Hj. apply (skipped_not_text _ _ pool j Hp). apply Hbelow. lia.
  - unfold section_range, section_entry_at. rewrite Ho, Hz. reflexivity.
Qed.

(** What a not-found failure says about the table. *)
Lemma findTextSection_not_found_inv (fileData : list byte)
    (elfHeader : Elf64_Ehdr) :
  findTextSection fileData elfHeader = Some (NotFound NoTextSection) ->
  ~ (e_shoff elfHeader = 0 \/ e_shnum elfHeader = 0) /\
  e_shstrndx elfHeader < e_shnum elfHeader /\
  forall i, 0 <= i < e_shnum elfHeader ->
    section_name fileData elfHeader i <> Some dot_text.
Proof.
  intros H.
  destruct (Z.eq_dec (e_shoff elfHeader) 0) as [E1|E1];
    [rewrite findTextSection_no_table in H by tauto; discriminate|].
  destruct (Z.eq_dec (e_shnum elfHeader) 0) as [E2|E2];
    [rewrite findTextSection_no_table in H by tauto; discriminate|].
  assert (Hno : ~ (e_shoff elfHeader = 0 \/ e_shnum elfHeader = 0)) by tauto.
  destruct (Z.le_gt_cases (e_shnum elfHeader) (e_shstrndx elfHeader))
    as [Hidx|Hidx];
    [rewrite findTextSection_bad_index in H by assumption; discriminate|].
  split; [assumption|]. split; [assumption|].
  destruct (findTextSection_walk_inv _ _ _ Hno Hidx H) as (pool & Hp & Hscan).
  destruct (scan_sections_inv _ _ _ _ _ _ Hscan)
    as [(i & name & off & size & _ & Hr & _) | (_ & Hall)];
    [discriminate|].
  intros i Hi. apply (skipped_not_text _ _ pool i Hp). apply Hall. lia.
Qed.

(** C6, as the code has it: the name read of an examined entry is not
    checked against the extent of the string-table section.  The name is
    compared at the image offset (string-table file offset + name offset)
    modulo [2^64], wherever that lies, and the only bound is the image
    itself: whenever the locator returns a result after its two checks,
    the name of every examined entry was read inside the image, and for
    the entry it returns the bytes [.text] and their terminator lie inside
    the image at that offset. *)
Theorem findTextSection_name_reads_in_image (fileData : list byte)
    (elfHeader : Elf64_Ehdr) (r : Located) :
  ~ (e_shoff elfHeader = 0 \/ e_shnum elfHeader = 0) ->
  e_shstrndx elfHeader < e_shnum elfHeader ->
  findTextSection fileData elfHeader = Some r ->
  exists pool,
    name_pool fileData elfHeader = Some pool /\
    match r with
    | Found off size =>
        exists i name,
          0 <= i < e_shnum elfHeader /\
          load32 fileData (section_entry_at elfHeader i) = Some name /\
          cstring_at fileData (wrap64 (pool + name)) = Some dot_text /\
          0 <= wrap64 (pool + name) /\
          wrap64 (pool + name) + Z.of_nat (length dot_text) + 1
            <= Z.of_nat (length fileData) /\
          section_range fileData elfHeader i = Some (off, size) /\
          (forall j, 0 <= j < i ->
             exists name',
               load32 fileData (section_entry_at elfHeader j) = Some name' /\
               0 <= wrap64 (pool + name') < Z.of_nat (length fileData))
    | NotFound _ =>
        forall j, 0 <= j < e_shnum elfHeader ->
          exists name',
            load32 fileData (section_entry_at elfHeader j) = Some name' /\
            0 <= wrap64 (pool + name') < Z.of_nat (length fileData)
    end.
Proof.
  intros H1 H2 H.
  destruct (findTextSection_walk_inv _ _ _ H1 H2 H) as (pool & Hp & Hscan).
  exists pool. split; [assumption|].
  assert (Hsk : forall j, skipped fileData (e_shoff elfHeader) pool j ->
            exists name',
              load32 fileData (section_entry_at elfHeader j) = Some name' /\
              0 <= wrap64 (pool + name') < Z.of_nat (length fileData)).
  { intros j (name' & Hl & Hc). exists name'. split; [exact Hl|].
    eapply strcmp_eq_inv_pos; eassumption. }
  destruct (scan_sections_inv _ _ _ _ _ _ Hscan)
    as [(i & name & off & size & Hi & -> & Hl & Hc & Ho & Hz & Hbelow)
       | (-> & Hall)].
  - exists i, name.
    apply (strcmp_eq_true_iff _ _ _ dot_text_nonzero) in Hc.
    destruct (cstring_at_inv _ _ _ Hc) as (Hpos & Hend & _).
    repeat split; try assumption; try lia.
    + unfold section_range, section_entry_at. rewrite Ho, Hz. reflexivity.
    + intros j Hj. apply Hsk, Hbelow. lia.
  - intros j Hj. apply Hsk, Hall. lia.
Qed.

(** In [image_wrapping_name] the string table entry gives the file offset
    [2^64 - 8] and the returned entry the name offset 201: the name is
    read at byte 193 of the 200-byte image. *)
Lemma findTextSection_name_reads_in_image_witness :
  name_pool image_wrapping_name (ehdr64 64 2 0) = Some (2 ^ 64 - 8) /\
  exists i name,
    0 <= i < 2 /\
    load32 image_wrapping_name (section_entry_at (ehdr64 64 2 0) i)
      = Some name /\
    cstring_at image_wrapping_name (wrap64 (2 ^ 64 - 8 + name))
      = Some dot_text /\
    wrap64 (2 ^ 64 - 8 + name) + 6 <= 200 /\
    section_range image_wrapping_name (ehdr64 64 2 0) i = Some (199, 1).
Proof.
  assert (Hpool : name_pool image_wrapping_name (ehdr64 64 2 0)
                  = Some (2 ^ 64 - 8)) by (vm_compute; reflexivity).
  split; [exact Hpool|].
  assert (H1 : ~ (e_shoff (ehdr64 64 2 0) = 0 \/ e_shnum (ehdr64 64 2 0) = 0))
    by (cbn; lia).
  assert (H2 : e_shstrndx (ehdr64 64 2 0) < e_shnum (ehdr64 64 2 0))
    by (cbn; lia).
  assert (H : findTextSection image_wrapping_name (ehdr64 64 2 0)
              = Some (Found 199 1)) by (vm_compute; reflexivity).
  destruct (findTextSection_name_reads_in_image _ _ _ H1 H2 H)
    as (pool & Hp & i & name & Hi & Hl & Hc & _ & Hin & Hr & _).
  rewrite Hpool in Hp. injection Hp as <-.
  exists i, name.
  split; [exact Hi|]. split; [exact Hl|]. split; [exact Hc|].
  split; [|exact Hr].
  change (wrap64 (2 ^ 64 - 8 + name) + 5 + 1 <= 200) in Hin.
  lia.
Defined.

(** C6, as stated, fails: in this image the string-table section is the
    single byte at offset 192, the second entry's name offset is 1, which
    is past that extent, and the lookup does not fail: it reads the name
    from the six bytes after the section and returns the entry. *)
Lemma name_read_past_string_table :
  overlay_Elf64_Ehdr image_name_past_strtab 0 = Some (ehdr64 64 2 0) /\
  option_map (fun sh => (sh_offset sh, sh_size sh))
    (overlay_Elf64_Shdr image_name_past_strtab
       (section_entry_at (ehdr64 64 2 0) 0)) = Some (192, 1) /\
  load32 image_name_past_strtab (section_entry_at (ehdr64 64 2 0) 1)
    = Some 1 /\
  findTextSection image_name_past_strtab (ehdr64 64 2 0)
    = Some (Found 199 2).
Proof. repeat split; vm_compute; reflexivity. Qed.


Lemma image_no_text_valid :
  valid_section_table image_no_text (ehdr64 64 2 0).
Proof.
  split; [reflexivity|]. split; [reflexivity|].
  split; [split; [discriminate | reflexivity]|].
  split; [discriminate|].
  intros i Hi. cbn in Hi.
  assert (H : i = 0 \/ i = 1) by lia.
  destruct H as [-> | ->]; eexists; vm_compute; reflexivity.
Defined.



(** ** The size check of [main] *)

(** When the sum of offset and size fits 64 bits, a section that ends
    after the file is refused before the range is copied. *)
Lemma main_size_check (code : list byte) (report : HeaderReport)
    (elfHeader : Elf64_Ehdr) (off size : Z) :
  printELFHeader code = Some report ->
  overlay_Elf64_Ehdr code 0 = Some elfHeader ->
  findTextSection code elfHeader = Some (Found off size) ->
  0 <= off + size < 2 ^ 64 ->
  Z.of_nat (length code) < off + size ->
  main code = Some SectionExceedsFile.
Proof.
  intros Hp Hh Hf Hfit Hlen. unfold main.
  rewrite Hp. cbn [bind].
  rewrite (findTextSection_in_file_overlay _ _ _ Hh), Hf. cbn [bind].
  unfold wrap64. rewrite Z.mod_small by assumption.
  replace (Z.of_nat (length code) <? off + size) with true
    by (symmetry; apply Z.ltb_lt; assumption).
  reflexivity.
Qed.

(** A listing is only produced from a range that lies inside the file. *)
Lemma main_listing_inside (code textSection : list byte)
    (listing : list DecodedInstruction * Stop) :
  main code = Some (Disassembled textSection listing) ->
  exists off size,
    0 <= off /\ 0 <= size /\ off + size <= Z.of_nat (length code) /\
    slice code off size = Some textSection /\
    listing = Main.disassemble textSection 0.
Proof.
  unfold main. intros H.
  destruct (printELFHeader code); [|discriminate]. cbn [bind] in H.
  destruct (findTextSection_in_file code 0) as [[off size|why]|];
    try discriminate; cbn [bind] in H.
  destruct (Z.of_nat (length code) <? wrap64 (off + size)); [discriminate|].
  destruct (slice code off size) as [text|] eqn:Es; [|discriminate].
  cbn [bind] in H. injection H as <- <-.
  exists off, size. unfold slice in Es.
  destruct ((0 <=? off) && (0 <=? size)
            && (off + size <=? Z.of_nat (length code))) eqn:E;
    [|discriminate].
  apply andb_true_iff in E. destruct E as [E E3].
  apply andb_true_iff in E. destruct E as [E1 E2].
  apply Z.leb_le in E1, E2, E3.
  repeat split; try assumption.
  unfold slice.
  replace ((0 <=? off) && (0 <=? size)
           && (off + size <=? Z.of_nat (length code))) with true
    by (symmetry; repeat (apply andb_true_iff; split); apply Z.leb_le; lia).
  assumption.
Qed.

(** C2: a located section whose offset plus size, as exact integers,
    exceeds the image length should stop the pipeline before any byte of
    the region is read.  The check adds the two 64-bit fields in 64 bits.
    In this image of 198 bytes the [.text] entry has offset [2^64 - 1] and
    size 2: the exact sum exceeds the length, the wrapped sum is 1, the
    check passes and the range is taken outside the buffer instead of
    being refused. *)
Theorem main_size_check_wraps :
  overlay_Elf64_Ehdr image_wrapping_text 0 = Some (ehdr64 64 2 0) /\
  findTextSection image_wrapping_text (ehdr64 64 2 0)
    = Some (Found (2 ^ 64 - 1) 2) /\
  Z.of_nat (length image_wrapping_text) < (2 ^ 64 - 1) + 2 /\
  (Z.of_nat (length image_wrapping_text) <? wrap64 ((2 ^ 64 - 1) + 2))
    = false /\
  slice image_wrapping_text (2 ^ 64 - 1) 2 = None /\
  main image_wrapping_text = None.
Proof. repeat split; vm_compute; reflexivity. Qed.

(** * Further properties of the decoders *)

(** ** Where a decode stops and what it has emitted *)

Section LoopSites.

Variable body : list byte -> nat -> Step.
Variable loop : list byte -> nat -> list DecodedInstruction -> Exit.

Hypothesis loop_unfold : forall code i out,
  loop code i out =
  if (i <? length code)%nat then
    match body code i with
    | Emit r j => loop code j (out ++ [r])
    | Halt s => mkExit out s i
    end
  else mkExit out Finished i.

Hypothesis body_advances : forall code i r j,
  body code i = Emit r j -> (i < j)%nat.

(** A loop left otherwise than at the end was stopped by its body, at a
    cursor inside the input. *)
Lemma loop_halt_site (n : nat) : forall code i out,
  (length code - i <= n)%nat ->
  stop (loop code i out) <> Finished ->
  (cursor (loop code i out) < length code)%nat /\
  body code (cursor (loop code i out)) = Halt (stop (loop code i out)).
Proof.
  induction n as [|n IH]; intros code i out Hn; rewrite loop_unfold;
    destruct (i <? length code)%nat eqn:E;
    try (cbn; congruence); apply Nat.ltb_lt in E; [lia|].
  destruct (body code i) as [r j|s] eqn:Eb.
  - apply IH. apply body_advances in Eb. lia.
  - cbn. intros _. split; [assumption | exact Eb].
Qed.

(** The lines of a loop are those its body emits from the start cursor to
    the cursor at which the loop is left. *)
Lemma loop_emitted (n : nat) : forall code i out,
  (length code - i <= n)%nat ->
  exists recs,
    lines (loop code i out) = (out ++ recs)%list /\
    emitted body code i recs (cursor (loop code i out)).
Proof.
  induction n as [|n IH]; intros code i out Hn; rewrite loop_unfold;
    destruct (i <? length code)%nat eqn:E;
    try (exists []; cbn; rewrite app_nil_r; split; reflexivity);
    apply Nat.ltb_lt in E; [lia|].
  destruct (body code i) as [r j|s] eqn:Eb.
  - destruct (IH code j (out ++ [r])%list) as (recs & Hl & He).
    { apply body_advances in Eb. lia. }
    exists (r :: recs). rewrite Hl, <- app_assoc. split; [reflexivity|].
    cbn [emitted]. exists j. split; assumption.
  - exists []. cbn. rewrite app_nil_r. split; reflexivity.
Qed.

End LoopSites.

Lemma Main_body_advances baseAddress code i r j :
  Main.body baseAddress code i = Emit r j -> (i < j)%nat.
Proof.
  intros H. destruct (Main_body_emit _ _ _ _ _ H) as (_ & -> & Hw & _). lia.
Qed.

Lemma Alt_body_advances code i r j :
  Alt.body code i = Emit r j -> (i < j)%nat.
Proof.
  intros H. destruct (Alt_body_emit _ _ _ _ H) as (_ & -> & Hw & _). lia.
Qed.

(** The body stops only at a load-immediate opcode, and the way it stops
    tells how many bytes follow the opcode. *)
Lemma Main_body_halt_inv baseAddress code i s :
  (i < length code)%nat -> Main.body baseAddress code i = Halt s ->
  exists b, at_index code i = Some b /\ is_mov_opcode b /\
    (s = UnexpectedEnd /\ (length code < i + 4)%nat \/
     s = OutOfBounds /\ length code = (i + 4)%nat).
Proof.
  intros Hi. unfold Main.body.
  destruct (at_index_some code i Hi) as [b ->]. intros H. exists b.
  destruct ((0xB8 <=? u8 b) && (u8 b <=? 0xBF)) eqn:Eop.
  - apply andb_true_iff in Eop. destruct Eop as [E1 E2].
    apply Z.leb_le in E1, E2.
    split; [reflexivity|]. split; [split; assumption|].
    destruct (length code <? i + 4)%nat eqn:Eg.
    + apply Nat.ltb_lt in Eg. injection H as <-. left. auto.
    + apply Nat.ltb_ge in Eg.
      destruct (read32 code (i + 1)) eqn:Er; [discriminate|].
      apply read32_none in Er. injection H as <-. right. split; [reflexivity | lia].
  - destruct (u8 b =? 0x90); discriminate.
Qed.

Lemma Alt_body_halt_inv code i s :
  (i < length code)%nat -> Alt.body code i = Halt s ->
  exists b, at_index code i = Some b /\ is_mov_opcode b /\
    (s = UnexpectedEnd /\ (length code < i + 4)%nat \/
     s = OutOfBounds /\ length code = (i + 4)%nat).
Proof.
  intros Hi. unfold Alt.body.
  destruct (at_index_some code i Hi) as [b ->]. intros H. exists b.
  destruct ((0xB8 <=? u8 b) && (u8 b <=? 0xBF)) eqn:Eop.
  - apply andb_true_iff in Eop. destruct Eop as [E1 E2].
    apply Z.leb_le in E1, E2.
    split; [reflexivity|]. split; [split; assumption|].
    destruct (length code <? i + 4)%nat eqn:Eg.
    + apply Nat.ltb_lt in Eg. injection H as <-. left. auto.
    + apply Nat.ltb_ge in Eg.
      destruct (read32 code (i + 1)) eqn:Er; [discriminate|].
      apply read32_none in Er. injection H as <-. right. split; [reflexivity | lia].
  - destruct (u8 b =? 0xC3); [discriminate|].
    destruct (u8 b =? 0x90); discriminate.
Qed.

(** The site at which each decoder stops early. *)
Lemma Main_failure_site baseAddress code :
  let e := Main.decode_from baseAddress code 0 [] in
  stop e <> Finished ->
  exists b, at_index code (span (lines e)) = Some b /\ is_mov_opcode b /\
    (stop e = UnexpectedEnd /\ (length code < span (lines e) + 4)%nat \/
     stop e = OutOfBounds /\ length code = (span (lines e) + 4)%nat).
Proof.
  cbv zeta. intros Hs.
  destruct (Main_exit baseAddress code) as (_ & Hcur & _ & _).
  cbv zeta in Hcur. rewrite <- Hcur.
  destruct (loop_halt_site (Main.body baseAddress)
              (Main.decode_from baseAddress)
              (Main_decode_from_unfold baseAddress)
              (Main_body_advances baseAddress)
              (length code) code 0%nat [] ltac:(lia) Hs) as [Hlt Hb].
  exact (Main_body_halt_inv _ _ _ _ Hlt Hb).
Qed.

Lemma Alt_failure_site code :
  let e := Alt.decode_from code 0 [] in
  stop e <> Finished ->
  exists b, at_index code (span (lines e)) = Some b /\ is_mov_opcode b /\
    (stop e = UnexpectedEnd /\ (length code < span (lines e) + 4)%nat \/
     stop e = OutOfBounds /\ length code = (span (lines e) + 4)%nat).
Proof.
  cbv zeta. intros Hs.
  destruct (Alt_exit code) as (_ & Hcur & _ & _).
  cbv zeta in Hcur. rewrite <- Hcur.
  destruct (loop_halt_site Alt.body Alt.decode_from
              Alt_decode_from_unfold Alt_body_advances
              (length code) code 0%nat [] ltac:(lia) Hs) as [Hlt Hb].
  exact (Alt_body_halt_inv _ _ _ Hlt Hb).
Qed.

(** X1: a decode that does not reach the end of its input stopped at a
    load-immediate opcode that sits right after the last completed line
    and has fewer than four bytes after it: with fewer than three it is
    the unexpected-end report, with exactly three the read outside the
    vector.  This holds for both decoders. *)
Theorem decode_failure_site (code : list byte) (baseAddress : Z) :
  (forall recs s, Main.disassemble code baseAddress = (recs, s) ->
     s <> Finished ->
     exists b, at_index code (span recs) = Some b /\ is_mov_opcode b /\
       (s = UnexpectedEnd /\ (length code < span recs + 4)%nat \/
        s = OutOfBounds /\ length code = (span recs + 4)%nat)) /\
  (forall recs s, Alt.disassemble code = (recs, s) ->
     s <> Finished ->
     exists b, at_index code (span recs) = Some b /\ is_mov_opcode b /\
       (s = UnexpectedEnd /\ (length code < span recs + 4)%nat \/
        s = OutOfBounds /\ length code = (span recs + 4)%nat)).
Proof.
  split; intros recs s H Hs.
  - unfold Main.disassemble in H. cbv zeta in H. injection H as <- <-.
    exact (Main_failure_site baseAddress code Hs).
  - unfold Alt.disassemble in H. cbv zeta in H. injection H as <- <-.
    exact (Alt_failure_site code Hs).
Qed.

(** X2: if no load-immediate opcode occurs among the last four bytes of
    the input, both decoders reach the end of the input: the decode ends
    normally, whatever the other bytes are. *)
Theorem decode_finishes (code : list byte) (baseAddress : Z) :
  (forall i b, (length code <= i + 4)%nat -> at_index code i = Some b ->
     ~ is_mov_opcode b) ->
  snd (Main.disassemble code baseAddress) = Finished /\
  snd (Alt.disassemble code) = Finished.
Proof.
  intros Hlast. split.
  - unfold Main.disassemble. cbv zeta. cbn [snd].
    destruct (stop (Main.decode_from baseAddress code 0 [])) eqn:Es;
      [reflexivity | exfalso | exfalso];
      destruct (Main_failure_site baseAddress code) as (b & Hb & Hm & Hc);
      try (cbv zeta; rewrite Es; discriminate);
      refine (Hlast _ b _ Hb Hm);
      destruct Hc as [[_ Hc] | [_ Hc]]; lia.
  - unfold Alt.disassemble. cbv zeta. cbn [snd].
    destruct (stop (Alt.decode_from code 0 [])) eqn:Es;
      [reflexivity | exfalso | exfalso];
      destruct (Alt_failure_site code) as (b & Hb & Hm & Hc);
      try (cbv zeta; rewrite Es; discriminate);
      refine (Hlast _ b _ Hb Hm);
      destruct Hc as [[_ Hc] | [_ Hc]]; lia.
Qed.

Lemma decode_finishes_witness :
  snd (Main.disassemble [xb8; x01; x00; x00; x00; x90] 0) = Finished /\
  snd (Alt.disassemble [xb8; x01; x00; x00; x00; x90]) = Finished.
Proof.
  apply decode_finishes. intros i b Hi Hb [H1 H2].
  pose proof (at_index_lt _ _ _ Hb) as Hlt. cbn in Hi, Hlt.
  assert (H : (i = 2 \/ i = 3 \/ i = 4 \/ i = 5)%nat) by lia.
  destruct H as [-> | [-> | [-> | ->]]]; cbn in Hb; injection Hb as <-;
    vm_compute in H1; apply H1; reflexivity.
Defined.

(** ** Inputs without a load-immediate opcode *)

Section PlainBytes.

Variable body : list byte -> nat -> Step.
Variable addr : nat -> Z.
Variable code : list byte.

Hypothesis no_mov : forall b, In b code -> ~ is_mov_opcode b.

Hypothesis body_plain : forall i r j,
  body code i = Emit r j ->
  j = (i + 1)%nat /\ address r = addr i /\ byteWidth r = 1%nat /\
  mnemonic r <> "mov".

Lemma emitted_plain (recs : list DecodedInstruction) : forall start final,
  emitted body code start recs final ->
  final = (start + length recs)%nat /\
  forall k r, nth_error recs k = Some r ->
    address r = addr (start + k) /\ byteWidth r = 1%nat /\
    mnemonic r <> "mov".
Proof.
  induction recs as [|x recs IH]; intros start final He; cbn [emitted] in He.
  - split; [cbn; lia|]. intros [|k] r H; discriminate.
  - destruct He as (j & Hb & He).
    destruct (body_plain _ _ _ Hb) as (-> & Ha & Hw & Hm).
    destruct (IH _ _ He) as (-> & Hrest).
    split; [cbn; lia|].
    intros [|k] r H; cbn in H.
    + injection H as <-. rewrite Nat.add_0_r. auto.
    + replace (start + S k)%nat with (start + 1 + k)%nat by lia.
      apply Hrest. assumption.
Qed.

End PlainBytes.

Lemma Main_body_plain baseAddress code i r j :
  (forall b, In b code -> ~ is_mov_opcode b) ->
  Main.body baseAddress code i = Emit r j ->
  j = (i + 1)%nat /\ address r = wrap64 (baseAddress + Z.of_nat i) /\
  byteWidth r = 1%nat /\ mnemonic r <> "mov".
Proof.
  intros Hno. unfold Main.body.
  destruct (at_index code i) as [b|] eqn:Eb; [|discriminate].
  destruct ((0xB8 <=? u8 b) && (u8 b <=? 0xBF)) eqn:Eop.
  - exfalso. apply (Hno b); [eapply nth_error_In; exact Eb|].
    apply andb_true_iff in Eop. destruct Eop as [E1 E2].
    apply Z.leb_le in E1, E2. split; assumption.
  - destruct (u8 b =? 0x90); intros H; injection H as <- <-; cbn;
      repeat split; discriminate.
Qed.

Lemma Alt_body_plain code i r j :
  (forall b, In b code -> ~ is_mov_opcode b) ->
  Alt.body code i = Emit r j ->
  j = (i + 1)%nat /\ address r = Z.of_nat i /\
  byteWidth r = 1%nat /\ mnemonic r <> "mov".
Proof.
  intros Hno. unfold Alt.body.
  destruct (at_index code i) as [b|] eqn:Eb; [|discriminate].
  destruct ((0xB8 <=? u8 b) && (u8 b <=? 0xBF)) eqn:Eop.
  - exfalso. apply (Hno b); [eapply nth_error_In; exact Eb|].
    apply andb_true_iff in Eop. destruct Eop as [E1 E2].
    apply Z.leb_le in E1, E2. split; assumption.
  - destruct (u8 b =? 0xC3);
      [intros H; injection H as <- <-; cbn; repeat split; discriminate|].
    destruct (u8 b =? 0x90); intros H; injection H as <- <-; cbn;
      repeat split; discriminate.
Qed.

(** X3: on an input that holds no byte in [B8, BF] both decoders end
    normally with exactly one line per input byte: line [k] has width 1,
    is not a mov, and carries the address of byte [k] (base address plus
    [k] in 64 bits for the 64-bit decoder, [k] for the other). *)
Theorem decode_plain_bytes (code : list byte) (baseAddress : Z) :
  (forall b, In b code -> ~ is_mov_opcode b) ->
  (exists recs,
     Main.disassemble code baseAddress = (recs, Finished) /\
     length recs = length code /\
     forall k r, nth_error recs k = Some r ->
       address r = wrap64 (baseAddress + Z.of_nat k) /\
       byteWidth r = 1%nat /\ mnemonic r <> "mov") /\
  (exists recs,
     Alt.disassemble code = (recs, Finished) /\
     length recs = length code /\
     forall k r, nth_error recs k = Some r ->
       address r = Z.of_nat k /\
       byteWidth r = 1%nat /\ mnemonic r <> "mov").
Proof.
  intros Hno. split.
  - assert (Hs : stop (Main.decode_from baseAddress code 0 []) = Finished).
    { destruct (stop (Main.decode_from baseAddress code 0 [])) eqn:Es;
        [reflexivity | exfalso | exfalso];
        destruct (Main_failure_site baseAddress code) as (b & Hb & Hm & _);
        try (cbv zeta; rewrite Es; discriminate);
        exact (Hno b (nth_error_In _ _ Hb) Hm). }
    destruct (Main_exit baseAddress code) as (_ & _ & _ & Hfin).
    apply Hfin in Hs as Hcur.
    destruct (loop_emitted (Main.body baseAddress)
                (Main.decode_from baseAddress)
                (Main_decode_from_unfold baseAddress)
                (Main_body_advances baseAddress)
                (length code) code 0%nat [] ltac:(lia)) as (recs & Hl & He).
    cbn [app] in Hl.
    destruct (emitted_plain (Main.body baseAddress)
                (fun i => wrap64 (baseAddress + Z.of_nat i)) code
                (fun i r j => Main_body_plain baseAddress code i r j Hno)
                recs _ _ He) as (Hlen & Hrecs).
    exists recs. unfold Main.disassemble. cbv zeta. rewrite Hl, Hs.
    split; [reflexivity|]. split; [lia|]. exact Hrecs.
  - assert (Hs : stop (Alt.decode_from code 0 []) = Finished).
    { destruct (stop (Alt.decode_from code 0 [])) eqn:Es;
        [reflexivity | exfalso | exfalso];
        destruct (Alt_failure_site code) as (b & Hb & Hm & _);
        try (cbv zeta; rewrite Es; discriminate);
        exact (Hno b (nth_error_In _ _ Hb) Hm). }
    destruct (Alt_exit code) as (_ & _ & _ & Hfin).
    apply Hfin in Hs as Hcur.
    destruct (loop_emitted Alt.body Alt.decode_from
                Alt_decode_from_unfold Alt_body_advances
                (length code) code 0%nat [] ltac:(lia)) as (recs & Hl & He).
    cbn [app] in Hl.
    destruct (emitted_plain Alt.body Z.of_nat code
                (fun i r j => Alt_body_plain code i r j Hno)
                recs _ _ He) as (Hlen & Hrecs).
    exists recs. unfold Alt.disassemble. cbv zeta. rewrite Hl, Hs.
    split; [reflexivity|]. split; [lia|]. exact Hrecs.
Qed.

Lemma decode_plain_bytes_witness :
  exists recs,
    Alt.disassemble [x90; xc3; xff] = (recs, Finished) /\
    length recs = 3%nat.
Proof.
  assert (Hno : forall b, In b [x90; xc3; xff] -> ~ is_mov_opcode b).
  { intros b [<- | [<- | [<- | []]]] [H1 H2];
      vm_compute in H1, H2; first [apply H1; reflexivity | apply H2; reflexivity]. }
  destruct (proj2 (decode_plain_bytes [x90; xc3; xff] 0 Hno))
    as (recs & Hd & Hlen & _).
  exists recs. split; assumption.
Defined.

(** ** Decoding a concatenation *)

Lemma at_index_app_l (c1 c2 : list byte) (i : nat) :
  (i < length c1)%nat -> at_index (c1 ++ c2) i = at_index c1 i.
Proof. intros H. apply nth_error_app1. assumption. Qed.

Lemma at_index_app_r (c1 c2 : list byte) (i : nat) :
  at_index (c1 ++ c2) (length c1 + i) = at_index c2 i.
Proof.
  unfold at_index. rewrite nth_error_app2 by lia.
  f_equal. lia.
Qed.

Lemma read32_app_l (c1 c2 : list byte) (index : nat) :
  (index + 3 < length c1)%nat ->
  read32 (c1 ++ c2) index = read32 c1 index.
Proof.
  intros H. unfold read32. rewrite !at_index_app_l by lia. reflexivity.
Qed.

Lemma read32_app_r (c1 c2 : list byte) (i : nat) :
  read32 (c1 ++ c2) (length c1 + i) = read32 c2 i.
Proof.
  unfold read32.
  rewrite <- !Nat.add_assoc, !at_index_app_r. reflexivity.
Qed.

Section Concatenation.

Variables body body' : list byte -> nat -> Step.
Variables loop loop' : list byte -> nat -> list DecodedInstruction -> Exit.
Variable shift : DecodedInstruction -> DecodedInstruction.
Variables c1 c2 : list byte.

Hypothesis loop_unfold : forall code i out,
  loop code i out =
  if (i <? length code)%nat then
    match body code i with
    | Emit r j => loop code j (out ++ [r])
    | Halt s => mkExit out s i
    end
  else mkExit out Finished i.

Hypothesis loop'_unfold : forall code i out,
  loop' code i out =
  if (i <? length code)%nat then
    match body' code i with
    | Emit r j => loop' code j (out ++ [r])
    | Halt s => mkExit out s i
    end
  else mkExit out Finished i.

Hypothesis body_bounds : forall code i r j,
  body code i = Emit r j -> (i < j <= length code)%nat.

Hypothesis body'_advances : forall code i r j,
  body' code i = Emit r j -> (i < j)%nat.

Hypothesis body_halt : forall code i s, body code i = Halt s -> s <> Finished.

(** A step inside the first part is the same step in the whole. *)
Hypothesis body_app_l : forall i r j,
  body c1 i = Emit r j -> body (c1 ++ c2) i = Emit r j.

(** A step in the second part of the whole is the step of the second
    part alone, moved behind the first. *)
Hypothesis body_app_r : forall i,
  body (c1 ++ c2) (length c1 + i) =
  match body' c2 i with
  | Emit r j => Emit (shift r) (length c1 + j)
  | Halt s => Halt s
  end.

Lemma loop_prefix (n : nat) : forall i out,
  (length c1 - i <= n)%nat -> (i <= length c1)%nat ->
  stop (loop c1 i out) = Finished ->
  loop (c1 ++ c2) i out =
  loop (c1 ++ c2) (length c1) (lines (loop c1 i out)).
Proof.
  induction n as [|n IH]; intros i out Hn Hi; rewrite (loop_unfold c1);
    destruct (i <? length c1)%nat eqn:E;
    try (apply Nat.ltb_ge in E; cbn; intros _; f_equal; lia);
    apply Nat.ltb_lt in E; [lia|].
  destruct (body c1 i) as [r j|s] eqn:Eb.
  - intros Hs. destruct (body_bounds _ _ _ _ Eb) as [Hij Hj].
    rewrite (loop_unfold (c1 ++ c2) i).
    replace (i <? length (c1 ++ c2))%nat with true
      by (symmetry; apply Nat.ltb_lt; rewrite length_app; lia).
    rewrite (body_app_l _ _ _ Eb).
    apply IH; [lia | lia | assumption].
  - cbn. intros Hs. exfalso. exact (body_halt _ _ _ Eb Hs).
Qed.

Lemma loop_suffix (n : nat) : forall i out out',
  (length c2 - i <= n)%nat ->
  loop (c1 ++ c2) (length c1 + i) (out ++ map shift out') =
  mkExit (out ++ map shift (lines (loop' c2 i out')))
         (stop (loop' c2 i out'))
         (length c1 + cursor (loop' c2 i out')).
Proof.
  induction n as [|n IH]; intros i out out' Hn;
    rewrite loop_unfold, loop'_unfold;
    replace (length c1 + i <? length (c1 ++ c2))%nat
      with (i <? length c2)%nat
      by (rewrite length_app; destruct (i <? length c2)%nat eqn:E;
          symmetry; [apply Nat.ltb_lt; apply Nat.ltb_lt in E
                    | apply Nat.ltb_ge; apply Nat.ltb_ge in E]; lia);
    destruct (i <? length c2)%nat eqn:E; try reflexivity;
    apply Nat.ltb_lt in E; [lia|].
  rewrite body_app_r.
  destruct (body' c2 i) as [r j|s] eqn:Eb; [|reflexivity].
  rewrite <- app_assoc.
  change (map shift out' ++ [shift r])%list
    with (map shift out' ++ map shift [r])%list.
  rewrite <- map_app.
  apply IH. apply body'_advances in Eb. lia.
Qed.

Lemma loop_app :
  stop (loop c1 0 []) = Finished ->
  loop (c1 ++ c2) 0 [] =
  mkExit (lines (loop c1 0 []) ++ map shift (lines (loop' c2 0 [])))
         (stop (loop' c2 0 []))
         (length c1 + cursor (loop' c2 0 [])).
Proof.
  intros Hs.
  rewrite (loop_prefix (length c1) 0 [] ltac:(lia) ltac:(lia) Hs).
  pose proof (loop_suffix (length c2) 0 (lines (loop c1 0 [])) []
                ltac:(lia)) as H.
  cbn [map] in H. rewrite app_nil_r, Nat.add_0_r in H. exact H.
Qed.

End Concatenation.

Lemma Main_body_bounds baseAddress code i r j :
  Main.body baseAddress code i = Emit r j -> (i < j <= length code)%nat.
Proof.
  intros H. destruct (Main_body_emit _ _ _ _ _ H) as (_ & Hj & Hw & Hle). lia.
Qed.

Lemma Alt_body_bounds code i r j :
  Alt.body code i = Emit r j -> (i < j <= length code)%nat.
Proof.
  intros H. destruct (Alt_body_emit _ _ _ _ H) as (_ & Hj & Hw & Hle). lia.
Qed.

Lemma Main_body_app_l baseAddress c1 c2 i r j :
  Main.body baseAddress c1 i = Emit r j ->
  Main.body baseAddress (c1 ++ c2) i = Emit r j.
Proof.
  unfold Main.body.
  destruct (at_index c1 i) as [b|] eqn:Eb; [|discriminate].
  rewrite at_index_app_l by (eapply at_index_lt; eassumption). rewrite Eb.
  destruct ((0xB8 <=? u8 b) && (u8 b <=? 0xBF)); [|trivial].
  destruct (length c1 <? i + 4)%nat eqn:Eg; [discriminate|].
  apply Nat.ltb_ge in Eg.
  destruct (read32 c1 (i + 1)) as [imm|] eqn:Er; [|discriminate].
  assert (Hin : (i + 1 + 3 < length c1)%nat).
  { destruct (Nat.le_gt_cases (length c1) (i + 1 + 3)) as [H|H];
      [apply read32_none in H; congruence | assumption]. }
  replace (length (c1 ++ c2) <? i + 4)%nat with false
    by (symmetry; apply Nat.ltb_ge; rewrite length_app; lia).
  rewrite read32_app_l by assumption. rewrite Er. trivial.
Qed.

Lemma Alt_body_app_l c1 c2 i r j :
  Alt.body c1 i = Emit r j -> Alt.body (c1 ++ c2) i = Emit r j.
Proof.
  unfold Alt.body.
  destruct (at_index c1 i) as [b|] eqn:Eb; [|discriminate].
  rewrite at_index_app_l by (eapply at_index_lt; eassumption). rewrite Eb.
  destruct ((0xB8 <=? u8 b) && (u8 b <=? 0xBF)); [|trivial].
  destruct (length c1 <? i + 4)%nat eqn:Eg; [discriminate|].
  apply Nat.ltb_ge in Eg.
  destruct (read32 c1 (i + 1)) as [imm|] eqn:Er; [|discriminate].
  assert (Hin : (i + 1 + 3 < length c1)%nat).
  { destruct (Nat.le_gt_cases (length c1) (i + 1 + 3)) as [H|H];
      [apply read32_none in H; congruence | assumption]. }
  replace (length (c1 ++ c2) <? i + 4)%nat with false
    by (symmetry; apply Nat.ltb_ge; rewrite length_app; lia).
  rewrite read32_app_l by assumption. rewrite Er. trivial.
Qed.

Lemma guard_app_r (c1 c2 : list byte) (i : nat) :
  (length (c1 ++ c2) <? length c1 + i + 4)%nat = (length c2 <? i + 4)%nat.
Proof.
  rewrite length_app.
  destruct (length c2 <? i + 4)%nat eqn:E;
    [apply Nat.ltb_lt; apply Nat.ltb_lt in E
    | apply Nat.ltb_ge; apply Nat.ltb_ge in E]; lia.
Qed.

Lemma Main_body_app_r baseAddress c1 c2 i :
  Main.body baseAddress (c1 ++ c2) (length c1 + i) =
  match Main.body (baseAddress + Z.of_nat (length c1)) c2 i with
  | Emit r j => Emit r (length c1 + j)
  | Halt s => Halt s
  end.
Proof.
  unfold Main.body. rewrite at_index_app_r.
  destruct (at_index c2 i) as [b|]; [|reflexivity].
  rewrite guard_app_r.
  replace (length c1 + i + 1)%nat with (length c1 + (i + 1))%nat by lia.
  rewrite read32_app_r.
  replace (baseAddress + Z.of_nat (length c1 + i))
    with (baseAddress + Z.of_nat (length c1) + Z.of_nat i) by lia.
  destruct ((0xB8 <=? u8 b) && (u8 b <=? 0xBF)).
  - destruct (length c2 <? i + 4)%nat; [reflexivity|].
    destruct (read32 c2 (i + 1)); [|reflexivity].
    f_equal. lia.
  - destruct (u8 b =? 0x90); f_equal; lia.
Qed.

Lemma Alt_body_app_r c1 c2 i :
  Alt.body (c1 ++ c2) (length c1 + i) =
  match Alt.body c2 i with
  | Emit r j => Emit (relocate (length c1) r) (length c1 + j)
  | Halt s => Halt s
  end.
Proof.
  unfold Alt.body. rewrite at_index_app_r.
  destruct (at_index c2 i) as [b|]; [|reflexivity].
  rewrite guard_app_r.
  replace (length c1 + i + 1)%nat with (length c1 + (i + 1))%nat by lia.
  rewrite read32_app_r.
  replace (Z.of_nat (length c1 + i))
    with (Z.of_nat i + Z.of_nat (length c1)) by lia.
  destruct ((0xB8 <=? u8 b) && (u8 b <=? 0xBF)).
  - destruct (length c2 <? i + 4)%nat; [reflexivity|].
    destruct (read32 c2 (i + 1)); [|reflexivity].
    unfold relocate. cbn. f_equal. lia.
  - destruct (u8 b =? 0xC3); [unfold relocate; cbn; f_equal; lia|].
    destruct (u8 b =? 0x90); unfold relocate; cbn; f_equal; lia.
Qed.

(** X4: the 64-bit decoder composes over concatenation.  If decoding [c1]
    with base address [a] ends normally, then decoding [c1 ++ c2] with
    base [a] gives the lines of [c1] followed by the lines of [c2] decoded
    with base [a + length c1], and ends the way the decode of [c2] ends.
    This is what the base address parameter is for. *)
Theorem Main_disassemble_app (c1 c2 : list byte) (baseAddress : Z)
    (l1 l2 : list DecodedInstruction) (s2 : Stop) :
  Main.disassemble c1 baseAddress = (l1, Finished) ->
  Main.disassemble c2 (baseAddress + Z.of_nat (length c1)) = (l2, s2) ->
  Main.disassemble (c1 ++ c2) baseAddress = ((l1 ++ l2)%list, s2).
Proof.
  unfold Main.disassemble. cbv zeta. intros H1 H2.
  injection H1 as Hl1 Hs1. injection H2 as Hl2 Hs2.
  rewrite (loop_app (Main.body baseAddress)
             (Main.body (baseAddress + Z.of_nat (length c1)))
             (Main.decode_from baseAddress)
             (Main.decode_from (baseAddress + Z.of_nat (length c1)))
             (fun r => r) c1 c2
             (Main_decode_from_unfold baseAddress)
             (Main_decode_from_unfold _)
             (Main_body_bounds baseAddress)
             (Main_body_advances _)
             (Main_body_halt baseAddress)
             (Main_body_app_l baseAddress c1 c2)
             (Main_body_app_r baseAddress c1 c2) Hs1).
  cbn [lines stop]. rewrite map_id, Hl1, Hl2, Hs2. reflexivity.
Qed.

Lemma Main_disassemble_app_witness :
  Main.disassemble ([x90; xff] ++ [xb8; x01; x00; x00; x00]) 0x1000 =
  ([mkInstr 0x1000 "nop" "" 1; mkInstr 0x1001 "db" "0xff" 1;
    mkInstr 0x1002 "mov" "rax, 0x1" 5], Finished).
Proof.
  apply (Main_disassemble_app [x90; xff] [xb8; x01; x00; x00; x00] 0x1000
           [mkInstr 0x1000 "nop" "" 1; mkInstr 0x1001 "db" "0xff" 1]
           [mkInstr 0x1002 "mov" "rax, 0x1" 5] Finished);
    vm_compute; reflexivity.
Defined.

(** X5: the stand-alone decoder composes over concatenation.  If decoding
    [c1] ends normally, decoding [c1 ++ c2] gives the lines of [c1]
    followed by the lines of [c2] with every address moved by the length
    of [c1], and ends the way the decode of [c2] ends. *)
Theorem Alt_disassemble_app (c1 c2 : list byte)
    (l1 l2 : list DecodedInstruction) (s2 : Stop) :
  Alt.disassemble c1 = (l1, Finished) ->
  Alt.disassemble c2 = (l2, s2) ->
  Alt.disassemble (c1 ++ c2) =
    ((l1 ++ map (relocate (length c1)) l2)%list, s2).
Proof.
  unfold Alt.disassemble. cbv zeta. intros H1 H2.
  injection H1 as Hl1 Hs1. injection H2 as Hl2 Hs2.
  rewrite (loop_app Alt.body Alt.body Alt.decode_from Alt.decode_from
             (relocate (length c1)) c1 c2
             Alt_decode_from_unfold Alt_decode_from_unfold
             Alt_body_bounds Alt_body_advances Alt_body_halt
             (Alt_body_app_l c1 c2) (Alt_body_app_r c1 c2) Hs1).
  cbn [lines stop]. rewrite Hl1, Hl2, Hs2. reflexivity.
Qed.

Lemma Alt_disassemble_app_witness :
  Alt.disassemble ([x90; xc3] ++ [xbf; x01; x00; x00; x00; xbb]) =
  ([mkInstr 0 "nop" "" 1; mkInstr 1 "ret" "" 1;
    mkInstr 2 "mov" "edi, 0x1" 5], UnexpectedEnd).
Proof.
  apply (Alt_disassemble_app [x90; xc3] [xbf; x01; x00; x00; x00; xbb]
           [mkInstr 0 "nop" "" 1; mkInstr 1 "ret" "" 1]
           [mkInstr 0 "mov" "edi, 0x1" 5] UnexpectedEnd);
    vm_compute; reflexivity.
Defined.

(** ** The two decoders side by side *)

Section Agreement.

Variables bodyA bodyB : list byte -> nat -> Step.
Variables loopA loopB : list byte -> nat -> list DecodedInstruction -> Exit.

Hypothesis loopA_unfold : forall code i out,
  loopA code i out =
  if (i <? length code)%nat then
    match bodyA code i with
    | Emit r j => loopA code j (out ++ [r])
    | Halt s => mkExit out s i
    end
  else mkExit out Finished i.

Hypothesis loopB_unfold : forall code i out,
  loopB code i out =
  if (i <? length code)%nat then
    match bodyB code i with
    | Emit r j => loopB code j (out ++ [r])
    | Halt s => mkExit out s i
    end
  else mkExit out Finished i.

Hypothesis bodyA_advances : forall code i r j,
  bodyA code i = Emit r j -> (i < j)%nat.

Hypothesis bodies_same : forall code i,
  same_step (bodyA code i) (bodyB code i).

Lemma loops_agree (n : nat) : forall code i outA outB,
  (length code - i <= n)%nat ->
  map byteWidth outA = map byteWidth outB ->
  map byteWidth (lines (loopA code i outA))
    = map byteWidth (lines (loopB code i outB)) /\
  stop (loopA code i outA) = stop (loopB code i outB) /\
  cursor (loopA code i outA) = cursor (loopB code i outB).
Proof.
  induction n as [|n IH]; intros code i outA outB Hn Hout;
    rewrite loopA_unfold, loopB_unfold;
    destruct (i <? length code)%nat eqn:E; try (cbn; auto);
    apply Nat.ltb_lt in E; [lia|].
  pose proof (bodies_same code i) as Hsame.
  destruct (bodyA code i) as [r j|s] eqn:Ea;
    destruct (bodyB code i) as [r' j'|s'] eqn:Eb;
    cbn in Hsame; try contradiction.
  - destruct Hsame as [<- Hw]. apply IH.
    + apply bodyA_advances in Ea. lia.
    + rewrite !map_app, Hout. cbn. rewrite Hw. reflexivity.
  - subst s'. cbn. auto.
Qed.

End Agreement.

Lemma bodies_same_step baseAddress code i :
  same_step (Main.body baseAddress code i) (Alt.body code i).
Proof.
  unfold Main.body, Alt.body.
  destruct (at_index code i) as [b|]; [|reflexivity].
  destruct ((0xB8 <=? u8 b) && (u8 b <=? 0xBF)).
  - destruct (length code <? i + 4)%nat; [reflexivity|].
    destruct (read32 code (i + 1)); cbn; auto.
  - destruct (u8 b =? 0x90), (u8 b =? 0xC3); cbn; auto.
Qed.


(** ** [read32] *)

Lemma le32_range (b0 b1 b2 b3 : byte) : 0 <= le32 b0 b1 b2 b3 < 2 ^ 32.
Proof.
  unfold le32.
  pose proof (u8_range b0). pose proof (u8_range b1).
  pose proof (u8_range b2). pose proof (u8_range b3). lia.
Qed.

Lemma u8_byte_of (z : Z) : u8 (byte_of z) = z mod 256.
Proof.
  unfold u8, byte_of.
  pose proof (Z.mod_pos_bound z 256 ltac:(lia)) as Hm.
  destruct (Byte.of_N (Z.to_N (z mod 256))) as [b|] eqn:E.
  - apply Byte.to_of_N in E. rewrite E. lia.
  - apply Byte.of_N_None_iff in E. lia.
Qed.

Lemma length_le_bytes (n : nat) : forall v, length (le_bytes n v) = n.
Proof. induction n as [|n IH]; intros v; cbn; [|rewrite IH]; reflexivity. Qed.

(** X7: [read32] returns a value exactly when the four bytes from its
    index on lie inside the vector, and the value is then the unsigned
    little-endian number those four bytes spell, below [2^32]: the shifts
    lose nothing. *)
Theorem read32_total_on_four_bytes (code : list byte) (index : nat) :
  (read32 code index = None <-> (length code < index + 4)%nat) /\
  (forall v, read32 code index = Some v ->
     0 <= v < 2 ^ 32 /\
     exists b0 b1 b2 b3,
       firstn 4 (skipn index code) = [b0; b1; b2; b3] /\
       v = le32 b0 b1 b2 b3).
Proof.
  split.
  - rewrite read32_none. lia.
  - intros v Hv.
    destruct (Nat.le_gt_cases (length code) (index + 3)) as [Hout|Hin].
    { apply read32_none in Hout. congruence. }
    destruct (at_index_some code index) as [b0 E0]; [lia|].
    destruct (at_index_some code (index + 1)) as [b1 E1]; [lia|].
    destruct (at_index_some code (index + 2)) as [b2 E2]; [lia|].
    destruct (at_index_some code (index + 3)) as [b3 E3]; [lia|].
    rewrite (read32_value _ _ _ _ _ _ E0 E1 E2 E3) in Hv.
    injection Hv as <-. split; [apply le32_range|].
    exists b0, b1, b2, b3. split; [|reflexivity].
    unfold at_index in *.
    rewrite <- (Nat.add_0_r index) in E0.
    rewrite <- nth_error_skipn in E0, E1, E2, E3.
    destruct (skipn index code) as [|x0 [|x1 [|x2 [|x3 l]]]];
      try discriminate.
    cbn in E0, E1, E2, E3. cbn. congruence.
Qed.

Lemma le32_le_bytes (v : Z) :
  0 <= v < 2 ^ 32 ->
  le32 (byte_of v) (byte_of (v / 256)) (byte_of (v / 256 / 256))
       (byte_of (v / 256 / 256 / 256)) = v.
Proof.
  intros Hv. unfold le32. rewrite !u8_byte_of.
  Z.div_mod_to_equations. lia.
Qed.

(** X8: a 32-bit value laid down low byte first is read back by [read32]:
    wherever the four bytes [v mod 256, v / 256 mod 256, ...] of a value
    [v] below [2^32] stand in the vector, [read32] at that index returns
    [v]. *)
Theorem read32_reads_back (pre post : list byte) (v : Z) :
  0 <= v < 2 ^ 32 ->
  read32 (pre ++ le_bytes 4 v ++ post) (length pre) = Some v.
Proof.
  intros Hv.
  pose proof (read32_app_r pre (le_bytes 4 v ++ post) 0) as H.
  rewrite Nat.add_0_r in H. rewrite H.
  cbn [le_bytes app].
  rewrite (read32_value _ 0 (byte_of v) (byte_of (v / 256))
             (byte_of (v / 256 / 256)) (byte_of (v / 256 / 256 / 256)))
    by reflexivity.
  rewrite le32_le_bytes by assumption. reflexivity.
Qed.

Lemma read32_reads_back_witness :
  read32 ([xb8] ++ le_bytes 4 0xDEADBEEF ++ [x90]) 1 = Some 0xDEADBEEF.
Proof.
  apply (read32_reads_back [xb8] [x90] 0xDEADBEEF). lia.
Defined.

(** * Further properties of the header functions *)

Lemma u8_inj (a b : byte) : u8 a = u8 b -> a = b.
Proof.
  unfold u8. intros H. apply N2Z.inj in H.
  pose proof (Byte.of_to_N a) as Ha. rewrite H, Byte.of_to_N in Ha.
  congruence.
Qed.

Lemma u8_eqb (a : byte) (m : Z) (k : byte) :
  u8 k = m -> (u8 a =? m) = true -> a = k.
Proof.
  intros <- H. apply Z.eqb_eq in H. apply u8_inj. assumption.
Qed.

Lemma isELF_true_iff (data : list byte) :
  isELF data = Some true <-> exists rest, data = (elf_magic ++ rest)%list.
Proof.
  split.
  - intros H. pose proof (isELF_true_length _ H) as Hl.
    destruct data as [|b0 [|b1 [|b2 [|b3 rest]]]]; cbn in Hl; try lia.
    unfold isELF, magic_and in H. cbn in H.
    destruct (u8 b0 =? ELFMAG0) eqn:E0; [|discriminate].
    destruct (u8 b1 =? ELFMAG1) eqn:E1; [|discriminate].
    destruct (u8 b2 =? ELFMAG2) eqn:E2; [|discriminate].
    destruct (u8 b3 =? ELFMAG3) eqn:E3; [|discriminate].
    apply (u8_eqb _ _ x7f eq_refl) in E0.
    apply (u8_eqb _ _ x45 eq_refl) in E1.
    apply (u8_eqb _ _ x4c eq_refl) in E2.
    apply (u8_eqb _ _ x46 eq_refl) in E3.
    subst. exists rest. reflexivity.
  - intros [rest ->]. reflexivity.
Qed.

Lemma isELF_false_iff (data : list byte) :
  isELF data = Some false <->
  ~ exists rest, data = (elf_magic ++ rest)%list.
Proof.
  rewrite <- isELF_true_iff.
  destruct (isELF_some data) as [[|] H]; rewrite H; split;
    try congruence; intros Hn; exfalso; apply Hn; reflexivity.
Qed.

(** X9: [isELF] never reads outside the vector, and it answers true
    exactly for the inputs that begin with the four bytes 7F 45 4C 46;
    every shorter input, the empty one included, is answered false. *)
Theorem isELF_recognizes_magic (data : list byte) :
  (exists b, isELF data = Some b) /\
  (isELF data = Some true <->
   exists rest, data = (elf_magic ++ rest)%list) /\
  ((length data < 4)%nat -> isELF data = Some false).
Proof.
  split; [apply isELF_some|]. split; [apply isELF_true_iff|].
  intros H. apply isELF_false_iff. intros [rest ->].
  rewrite length_app in H. cbn in H. lia.
Qed.

(** X10: [printELFHeader] reports "Not an ELF file" exactly for the inputs
    that do not begin with the four magic bytes, whatever their length and
    content. *)
Theorem printELFHeader_not_elf (data : list byte) :
  printELFHeader data = Some NotAnELF <->
  ~ exists rest, data = (elf_magic ++ rest)%list.
Proof.
  rewrite <- isELF_false_iff. unfold printELFHeader.
  destruct (isELF_some data) as [[|] ->]; cbn [bind negb].
  - split; [|discriminate].
    destruct (at_index data EI_CLASS) as [c|]; cbn [bind]; [|discriminate].
    destruct (u8 c =? 1).
    + destruct (length data <? sizeof_Elf32_Ehdr)%nat; [discriminate|].
      destruct (overlay_Elf32_Ehdr data 0); discriminate.
    + destruct (u8 c =? 2); [|discriminate].
      destruct (length data <? sizeof_Elf64_Ehdr)%nat; [discriminate|].
      destruct (overlay_Elf64_Ehdr data 0); discriminate.
  - split; reflexivity.
Qed.

(** X11: the input that consists of the four magic bytes and nothing else
    is the only one on which [printELFHeader] reads outside the vector;
    on every other input it produces one of its reports. *)
Theorem printELFHeader_out_of_bounds_only_on_magic (data : list byte) :
  printELFHeader data = None <-> data = elf_magic.
Proof.
  split.
  - intros H.
    destruct (isELF_some data) as [[|] He].
    + apply isELF_true_iff in He. destruct He as [[|c rest] ->].
      * apply app_nil_r.
      * destruct (printELFHeader_some (elf_magic ++ c :: rest)) as [r Hr].
        { rewrite length_app. cbn. lia. }
        congruence.
    + unfold printELFHeader in H. rewrite He in H. discriminate.
  - intros ->. reflexivity.
Qed.

(** X12: for an input that begins with the magic bytes followed by a
    class byte [c], the report is decided by [c] and the length alone.
    Class 1: too small below 52 bytes, otherwise the 32-bit header laid
    over the first bytes.  Class 2: too small below 64 bytes, otherwise
    the 64-bit header.  Any other class: unknown class [c], at every
    length. *)
Theorem printELFHeader_by_class (c : byte) (rest : list byte) :
  let data := (elf_magic ++ c :: rest)%list in
  (u8 c = 1 ->
   ((length data < 52)%nat -> printELFHeader data = Some TooSmallELF32) /\
   ((52 <= length data)%nat ->
    exists hdr, overlay_Elf32_Ehdr data 0 = Some hdr /\
                printELFHeader data = Some (HeaderELF32 hdr))) /\
  (u8 c = 2 ->
   ((length data < 64)%nat -> printELFHeader data = Some TooSmallELF64) /\
   ((64 <= length data)%nat ->
    exists hdr, overlay_Elf64_Ehdr data 0 = Some hdr /\
                printELFHeader data = Some (HeaderELF64 hdr))) /\
  (u8 c <> 1 -> u8 c <> 2 ->
   printELFHeader data = Some (UnknownClass (u8 c))).
Proof.
  cbv zeta.
  assert (He : isELF (elf_magic ++ c :: rest) = Some true)
    by (apply isELF_true_iff; eauto).
  assert (Hc : at_index (elf_magic ++ c :: rest) EI_CLASS = Some c)
    by reflexivity.
  unfold printELFHeader. rewrite He, Hc. cbn [bind negb].
  split; [|split].
  - intros ->. cbn [Z.eqb Pos.eqb]. split; intros Hl.
    + replace (length (elf_magic ++ c :: rest) <? sizeof_Elf32_Ehdr)%nat
        with true by (symmetry; apply Nat.ltb_lt; exact Hl).
      reflexivity.
    + replace (length (elf_magic ++ c :: rest) <? sizeof_Elf32_Ehdr)%nat
        with false by (symmetry; apply Nat.ltb_ge; exact Hl).
      destruct (overlay_Elf32_Ehdr_some _ Hl) as [hdr ->]. eauto.
  - intros ->. cbn [Z.eqb Pos.eqb]. split; intros Hl.
    + replace (length (elf_magic ++ c :: rest) <? sizeof_Elf64_Ehdr)%nat
        with true by (symmetry; apply Nat.ltb_lt; exact Hl).
      reflexivity.
    + replace (length (elf_magic ++ c :: rest) <? sizeof_Elf64_Ehdr)%nat
        with false by (symmetry; apply Nat.ltb_ge; exact Hl).
      destruct (overlay_Elf64_Ehdr_some _ Hl) as [hdr ->]. eauto.
  - intros H1 H2.
    replace (u8 c =? 1) with false by (symmetry; apply Z.eqb_neq; exact H1).
    replace (u8 c =? 2) with false by (symmetry; apply Z.eqb_neq; exact H2).
    reflexivity.
Qed.

(** ** Headers read back from their bytes *)

Lemma load_le_as_list (n : nat) : forall data off,
  0 <= off ->
  load_le n data off = load_le_list n (skipn (Z.to_nat off) data).
Proof.
  induction n as [|n IH]; intros data off Hoff; cbn [load_le load_le_list];
    [reflexivity|].
  rewrite at_offset_skipn by assumption.
  rewrite IH by lia.
  replace (Z.to_nat (off + 1)) with (S (Z.to_nat off)) by lia.
  destruct (skipn (Z.to_nat off) data) as [|c l] eqn:E; [reflexivity|].
  rewrite (skipn_succ_tail _ _ _ _ E). reflexivity.
Qed.

Lemma load_bytes_as_list (n : nat) : forall data off,
  0 <= off ->
  load_bytes n data off = load_bytes_list n (skipn (Z.to_nat off) data).
Proof.
  induction n as [|n IH]; intros data off Hoff;
    cbn [load_bytes load_bytes_list]; [reflexivity|].
  rewrite at_offset_skipn by assumption.
  rewrite IH by lia.
  replace (Z.to_nat (off + 1)) with (S (Z.to_nat off)) by lia.
  destruct (skipn (Z.to_nat off) data) as [|c l] eqn:E; [reflexivity|].
  rewrite (skipn_succ_tail _ _ _ _ E). reflexivity.
Qed.

Ltac fits_bounds :=
  unfold fits in *;
  change (256 ^ Z.of_nat 1) with 256 in *;
  change (256 ^ Z.of_nat 2) with 65536 in *;
  change (256 ^ Z.of_nat 4) with 4294967296 in *;
  change (256 ^ Z.of_nat 8) with 18446744073709551616 in *.

Ltac offsets_to_nat :=
  repeat match goal with
         | |- context [Z.to_nat ?z] =>
             let n := eval vm_compute in (Z.to_nat z) in
             change (Z.to_nat z) with n
         end.

Ltac split_ident ident Hlen :=
  do 16 (destruct ident as [|? ident]; [discriminate Hlen|]);
  destruct ident; [|discriminate Hlen];
  repeat match goal with
         | H : Forall _ (_ :: _) |- _ => inversion H; clear H; subst
         end.

Lemma le_value2 (v : Z) :
  0 <= v < 65536 ->
  v mod 256 + 256 * (v / 256 mod 256 + 256 * 0) = v.
Proof. intros H. Z.div_mod_to_equations. lia. Qed.

Lemma le_value4 (v : Z) :
  0 <= v < 4294967296 ->
  v mod 256 + 256 * (v / 256 mod 256 + 256 * (v / 256 / 256 mod 256 +
    256 * (v / 256 / 256 / 256 mod 256 + 256 * 0))) = v.
Proof. intros H. Z.div_mod_to_equations. lia. Qed.

Lemma le_value8 (v : Z) :
  0 <= v < 18446744073709551616 ->
  v mod 256 + 256 * (v / 256 mod 256 + 256 * (v / 256 / 256 mod 256 +
    256 * (v / 256 / 256 / 256 mod 256 +
    256 * (v / 256 / 256 / 256 / 256 mod 256 +
    256 * (v / 256 / 256 / 256 / 256 / 256 mod 256 +
    256 * (v / 256 / 256 / 256 / 256 / 256 / 256 mod 256 +
    256 * (v / 256 / 256 / 256 / 256 / 256 / 256 / 256 mod 256 +
    256 * 0))))))) = v.
Proof. intros H. Z.div_mod_to_equations. lia. Qed.

Lemma overlay_encode_Elf64_Ehdr (h : Elf64_Ehdr) (rest : list byte) :
  wf_Elf64_Ehdr h ->
  overlay_Elf64_Ehdr (encode_Elf64_Ehdr h ++ rest) 0 = Some h.
Proof.
  destruct h as [ident type machine version entry phoff shoff flags
                 ehsize phentsize phnum shentsize shnum shstrndx].
  unfold wf_Elf64_Ehdr.
  cbn [e_ident e_type e_machine e_version e_entry e_phoff e_shoff e_flags
       e_ehsize e_phentsize e_phnum e_shentsize e_shnum e_shstrndx].
  intros (Hlen & Hid & Hf). split_ident ident Hlen. fits_bounds.
  unfold overlay_Elf64_Ehdr, encode_Elf64_Ehdr, load16, load32, load64.
  rewrite load_bytes_as_list by lia.
  rewrite !load_le_as_list by lia.
  offsets_to_nat.
  cbn [e_ident e_type e_machine e_version e_entry e_phoff e_shoff e_flags
       e_ehsize e_phentsize e_phnum e_shentsize e_shnum e_shstrndx
       map app le_bytes skipn load_le_list load_bytes_list bind].
  rewrite !u8_byte_of.
  rewrite !le_value8 by lia.
  rewrite ?le_value4 by lia.
  rewrite !le_value2 by lia.
  rewrite !Z.mod_small by lia.
  reflexivity.
Qed.

Lemma overlay_encode_Elf32_Ehdr (h : Elf32_Ehdr) (rest : list byte) :
  wf_Elf32_Ehdr h ->
  overlay_Elf32_Ehdr (encode_Elf32_Ehdr h ++ rest) 0 = Some h.
Proof.
  destruct h as [ident type machine version entry phoff shoff flags
                 ehsize phentsize phnum shentsize shnum shstrndx].
  unfold wf_Elf32_Ehdr.
  cbn [e32_ident e32_type e32_machine e32_version e32_entry e32_phoff
       e32_shoff e32_flags e32_ehsize e32_phentsize e32_phnum e32_shentsize
       e32_shnum e32_shstrndx].
  intros (Hlen & Hid & Hf). split_ident ident Hlen. fits_bounds.
  unfold overlay_Elf32_Ehdr, encode_Elf32_Ehdr, load16, load32, load64.
  rewrite load_bytes_as_list by lia.
  rewrite !load_le_as_list by lia.
  offsets_to_nat.
  cbn [e32_ident e32_type e32_machine e32_version e32_entry e32_phoff
       e32_shoff e32_flags e32_ehsize e32_phentsize e32_phnum e32_shentsize
       e32_shnum e32_shstrndx
       map app le_bytes skipn load_le_list load_bytes_list bind].
  rewrite !u8_byte_of.
  rewrite !le_value4 by lia.
  rewrite !le_value2 by lia.
  rewrite !Z.mod_small by lia.
  reflexivity.
Qed.

Lemma length_encode_Elf64_Ehdr (h : Elf64_Ehdr) :
  length (e_ident h) = 16%nat -> length (encode_Elf64_Ehdr h) = 64%nat.
Proof.
  intros H. unfold encode_Elf64_Ehdr.
  rewrite !length_app, length_map, !length_le_bytes, H. reflexivity.
Qed.

Lemma length_encode_Elf32_Ehdr (h : Elf32_Ehdr) :
  length (e32_ident h) = 16%nat -> length (encode_Elf32_Ehdr h) = 52%nat.
Proof.
  intros H. unfold encode_Elf32_Ehdr.
  rewrite !length_app, length_map, !length_le_bytes, H. reflexivity.
Qed.

(** X13: a 64-bit header is read back from its bytes.  For every header
    whose fields hold values of their declared widths and whose
    identification begins with the magic bytes and class 2, the packed
    little-endian bytes of the header, followed by anything, make
    [printELFHeader] report exactly that header; the overlay that [main]
    hands to the section lookup recovers it as well. *)
Theorem printELFHeader_reads_back_Elf64 (h : Elf64_Ehdr) (rest : list byte) :
  wf_Elf64_Ehdr h ->
  firstn 5 (e_ident h) = [0x7f; 0x45; 0x4c; 0x46; 2] ->
  printELFHeader (encode_Elf64_Ehdr h ++ rest) = Some (HeaderELF64 h) /\
  overlay_Elf64_Ehdr (encode_Elf64_Ehdr h ++ rest) 0 = Some h.
Proof.
  intros Hwf Hid.
  pose proof (overlay_encode_Elf64_Ehdr h rest Hwf) as Hov.
  split; [|exact Hov].
  pose proof (length_encode_Elf64_Ehdr h (proj1 Hwf)) as Hlen.
  unfold printELFHeader.
  assert (Hshape : exists tail,
            (encode_Elf64_Ehdr h ++ rest)%list
            = (elf_magic ++ x02 :: tail)%list).
  { unfold encode_Elf64_Ehdr.
    destruct (e_ident h) as [|i0 [|i1 [|i2 [|i3 [|i4 ident]]]]];
      try discriminate.
    cbn [firstn] in Hid. injection Hid as -> -> -> -> ->.
    eexists. cbn [map app]. reflexivity. }
  destruct Hshape as [tail Hshape].
  assert (He : isELF (encode_Elf64_Ehdr h ++ rest) = Some true)
    by (apply isELF_true_iff; rewrite Hshape; eauto).
  rewrite He. cbn [bind negb].
  assert (Hc : at_index (encode_Elf64_Ehdr h ++ rest) EI_CLASS = Some x02)
    by (rewrite Hshape; reflexivity).
  rewrite Hc. cbn [bind].
  change (u8 x02 =? 1) with false. change (u8 x02 =? 2) with true. cbv iota.
  replace (length (encode_Elf64_Ehdr h ++ rest) <? sizeof_Elf64_Ehdr)%nat
    with false
    by (symmetry; apply Nat.ltb_ge; rewrite length_app, Hlen;
        unfold sizeof_Elf64_Ehdr; lia).
  rewrite Hov. reflexivity.
Qed.

Lemma ehdr64_wf (shoff shnum shstrndx : Z) :
  fits 8 shoff -> fits 2 shnum -> fits 2 shstrndx ->
  wf_Elf64_Ehdr (ehdr64 shoff shnum shstrndx).
Proof.
  intros H1 H2 H3. unfold wf_Elf64_Ehdr, ehdr64. cbn.
  repeat split; try assumption;
    try (repeat constructor; unfold fits; cbn; lia);
    try (apply H1); try (apply H2); try (apply H3);
    unfold fits; cbn; lia.
Qed.

Lemma printELFHeader_reads_back_Elf64_witness :
  printELFHeader (encode_Elf64_Ehdr (ehdr64 64 3 0) ++ [x90])
    = Some (HeaderELF64 (ehdr64 64 3 0)).
Proof.
  refine (proj1 (printELFHeader_reads_back_Elf64 (ehdr64 64 3 0) [x90] _ _)).
  - apply ehdr64_wf; unfold fits; cbn; lia.
  - reflexivity.
Defined.

(** X14: a 32-bit header is read back from its bytes: for every
    [Elf32_Ehdr] whose fields hold values of their declared widths and
    whose identification begins with the magic bytes and class 1, the 52
    packed little-endian bytes, followed by anything, make
    [printELFHeader] report exactly that header. *)
Theorem printELFHeader_reads_back_Elf32 (h : Elf32_Ehdr) (rest : list byte) :
  wf_Elf32_Ehdr h ->
  firstn 5 (e32_ident h) = [0x7f; 0x45; 0x4c; 0x46; 1] ->
  printELFHeader (encode_Elf32_Ehdr h ++ rest) = Some (HeaderELF32 h).
Proof.
  intros Hwf Hid.
  pose proof (overlay_encode_Elf32_Ehdr h rest Hwf) as Hov.
  pose proof (length_encode_Elf32_Ehdr h (proj1 Hwf)) as Hlen.
  unfold printELFHeader.
  assert (Hshape : exists tail,
            (encode_Elf32_Ehdr h ++ rest)%list
            = (elf_magic ++ x01 :: tail)%list).
  { unfold encode_Elf32_Ehdr.
    destruct (e32_ident h) as [|i0 [|i1 [|i2 [|i3 [|i4 ident]]]]];
      try discriminate.
    cbn [firstn] in Hid. injection Hid as -> -> -> -> ->.
    eexists. cbn [map app]. reflexivity. }
  destruct Hshape as [tail Hshape].
  assert (He : isELF (encode_Elf32_Ehdr h ++ rest) = Some true)
    by (apply isELF_true_iff; rewrite Hshape; eauto).
  rewrite He. cbn [bind negb].
  assert (Hc : at_index (encode_Elf32_Ehdr h ++ rest) EI_CLASS = Some x01)
    by (rewrite Hshape; reflexivity).
  rewrite Hc. cbn [bind].
  change (u8 x01 =? 1) with true. cbv iota.
  replace (length (encode_Elf32_Ehdr h ++ rest) <? sizeof_Elf32_Ehdr)%nat
    with false
    by (symmetry; apply Nat.ltb_ge; rewrite length_app, Hlen;
        unfold sizeof_Elf32_Ehdr; lia).
  rewrite Hov. reflexivity.
Qed.

Lemma printELFHeader_reads_back_Elf32_witness :
  let h := mkElf32_Ehdr
             [0x7f; 0x45; 0x4c; 0x46; 1; 1; 1; 0; 0; 0; 0; 0; 0; 0; 0; 0]
             2 3 1 0x8048000 52 0 0 52 32 0 40 0 0 in
  printELFHeader (encode_Elf32_Ehdr h) = Some (HeaderELF32 h).
Proof.
  cbv zeta.
  rewrite <- (app_nil_r (encode_Elf32_Ehdr _)).
  apply printELFHeader_reads_back_Elf32; [|reflexivity].
  unfold wf_Elf32_Ehdr, fits. cbn.
  repeat split; try lia; repeat constructor; lia.
Defined.

(** * Further properties of the section lookup and of [main] *)

Lemma load_le_range (n : nat) : forall data off v,
  load_le n data off = Some v -> fits n v.
Proof.
  unfold fits.
  induction n as [|n IH]; intros data off v H.
  - injection H as <-. cbn. lia.
  - change (load_le (S n) data off)
      with (b <- at_offset data off ;;
            hi <- load_le n data (off + 1) ;; Some (u8 b + 256 * hi)) in H.
    unfold bind in H.
    destruct (at_offset data off) as [b|]; [|discriminate].
    destruct (load_le n data (off + 1)) as [hi|] eqn:E; [|discriminate].
    injection H as <-.
    specialize (IH _ _ _ E). pose proof (u8_range b).
    rewrite Nat2Z.inj_succ, Z.pow_succ_r by lia.
    generalize dependent (256 ^ Z.of_nat n). intros P IH.
    change (0 <= u8 b + 256 * hi < 256 * P). lia.
Qed.

Lemma findTextSection_found_inv (fileData : list byte)
    (elfHeader : Elf64_Ehdr) (off size : Z) :
  findTextSection fileData elfHeader = Some (Found off size) ->
  ~ (e_shoff elfHeader = 0 \/ e_shnum elfHeader = 0) /\
  e_shstrndx elfHeader < e_shnum elfHeader.
Proof.
  intros H.
  destruct (Z.eq_dec (e_shoff elfHeader) 0) as [E1|E1];
    [rewrite findTextSection_no_table in H by tauto; discriminate|].
  destruct (Z.eq_dec (e_shnum elfHeader) 0) as [E2|E2];
    [rewrite findTextSection_no_table in H by tauto; discriminate|].
  split; [tauto|].
  destruct (Z.le_gt_cases (e_shnum elfHeader) (e_shstrndx elfHeader))
    as [Hidx|Hidx]; [|lia].
  rewrite findTextSection_bad_index in H by tauto. discriminate.
Qed.

(** What the locator has read when it returns a section. *)
Lemma findTextSection_found_entry (fileData : list byte)
    (elfHeader : Elf64_Ehdr) (off size : Z) :
  findTextSection fileData elfHeader = Some (Found off size) ->
  exists i,
    0 <= i < e_shnum elfHeader /\
    section_name fileData elfHeader i = Some dot_text /\
    (forall j, 0 <= j < i ->
       section_name fileData elfHeader j <> Some dot_text) /\
    section_range fileData elfHeader i = Some (off, size).
Proof.
  intros H.
  destruct (findTextSection_found_inv _ _ _ _ H) as [Hno Hidx].
  apply findTextSection_found_first; assumption.
Qed.

(** X15: when the locator returns a section, it is the file offset and
    size stored in the lowest-index entry whose resolved name is [.text]:
    an entry of that name exists, no entry before it has that name, and
    the two numbers are the ones read from it. *)
Theorem findTextSection_found_is_first (fileData : list byte)
    (elfHeader : Elf64_Ehdr) (off size : Z) :
  findTextSection fileData elfHeader = Some (Found off size) ->
  exists i,
    0 <= i < e_shnum elfHeader /\
    section_name fileData elfHeader i = Some dot_text /\
    (forall j, 0 <= j < i ->
       section_name fileData elfHeader j <> Some dot_text) /\
    section_range fileData elfHeader i = Some (off, size).
Proof. apply findTextSection_found_entry. Qed.

Lemma findTextSection_found_is_first_witness :
  exists i,
    0 <= i < 2 /\
    section_name image_wrapping_name (ehdr64 64 2 0) i = Some dot_text /\
    section_range image_wrapping_name (ehdr64 64 2 0) i = Some (199, 1).
Proof.
  assert (H : findTextSection image_wrapping_name (ehdr64 64 2 0)
              = Some (Found 199 1)) by (vm_compute; reflexivity).
  destruct (findTextSection_found_is_first _ _ _ _ H)
    as (i & Hi & Hn & _ & Hr).
  exists i. split; [exact Hi|]. split; assumption.
Defined.

Lemma section_range_fits (fileData : list byte) (elfHeader : Elf64_Ehdr)
    (i off size : Z) :
  section_range fileData elfHeader i = Some (off, size) ->
  fits 8 off /\ fits 8 size.
Proof.
  unfold section_range, load64. intros H.
  destruct (load_le 8 fileData (wrap64 (section_entry_at elfHeader i + 24)))
    as [o|] eqn:Eo; [|discriminate]. cbn [bind] in H.
  destruct (load_le 8 fileData (wrap64 (section_entry_at elfHeader i + 32)))
    as [z|] eqn:Ez; [|discriminate]. cbn [bind] in H.
  injection H as <- <-.
  split; eapply load_le_range; eassumption.
Qed.

Lemma findTextSection_found_fits (fileData : list byte)
    (elfHeader : Elf64_Ehdr) (off size : Z) :
  findTextSection fileData elfHeader = Some (Found off size) ->
  fits 8 off /\ fits 8 size.
Proof.
  intros H.
  destruct (findTextSection_found_entry _ _ _ _ H) as (i & _ & _ & _ & Hr).
  eapply section_range_fits; eassumption.
Qed.

(** X16: the offset and the size the locator returns are unsigned 64-bit
    values: both lie between 0 and [2^64 - 1], whatever the image holds. *)
Theorem findTextSection_returns_u64 (fileData : list byte)
    (elfHeader : Elf64_Ehdr) (off size : Z) :
  findTextSection fileData elfHeader = Some (Found off size) ->
  0 <= off < 2 ^ 64 /\ 0 <= size < 2 ^ 64.
Proof.
  intros H. destruct (findTextSection_found_fits _ _ _ _ H) as [Ho Hz].
  unfold fits in Ho, Hz.
  change (256 ^ Z.of_nat 8) with (2 ^ 64) in Ho, Hz. split; assumption.
Qed.

Lemma findTextSection_returns_u64_witness :
  0 <= 2 ^ 64 - 1 < 2 ^ 64 /\ 0 <= 2 < 2 ^ 64.
Proof.
  apply (findTextSection_returns_u64 image_wrapping_text (ehdr64 64 2 0)).
  vm_compute. reflexivity.
Defined.

(** X17: on a valid section table the lookup never leaves the image: it
    ends either with a section or with the "No .text section found"
    failure, and with nothing else. *)
Theorem findTextSection_defined_on_valid_table (fileData : list byte)
    (elfHeader : Elf64_Ehdr) :
  valid_section_table fileData elfHeader ->
  (exists off size,
     findTextSection fileData elfHeader = Some (Found off size)) \/
  findTextSection fileData elfHeader = Some (NotFound NoTextSection).
Proof.
  intros (Hoff & Hnum & Hidx & Hin & Hnames).
  rewrite findTextSection_walk by lia.
  destruct (Hnames 0 ltac:(lia)) as [s0 Hs0].
  destruct (section_name_inv _ _ _ _ Hs0) as (pool & _ & Hp & _).
  rewrite Hp. cbn [bind].
  apply scan_sections_defined. intros j Hj.
  unfold sizeof_Elf64_Shdr in *. split.
  - destruct (Hnames j ltac:(lia)) as [s Hs].
    destruct (section_name_inv _ _ _ _ Hs) as (pool' & name & Hp' & Hl & Hc).
    assert (pool' = pool) by congruence. subst pool'.
    exists name, s. split; assumption.
  - pose proof (wrap64_range (e_shoff elfHeader + 64 * j)) as Hw.
    pose proof (wrap64_le (e_shoff elfHeader + 64 * j) ltac:(lia)) as Hle.
    pose proof (wrap64_range (wrap64 (e_shoff elfHeader + 64 * j) + 24))
      as Hw1.
    pose proof (wrap64_le (wrap64 (e_shoff elfHeader + 64 * j) + 24)
                  ltac:(lia)) as Hle1.
    pose proof (wrap64_range (wrap64 (e_shoff elfHeader + 64 * j) + 32))
      as Hw2.
    pose proof (wrap64_le (wrap64 (e_shoff elfHeader + 64 * j) + 32)
                  ltac:(lia)) as Hle2.
    destruct (load_le_some 8 fileData
                (wrap64 (wrap64 (e_shoff elfHeader + 64 * j) + 24)))
      as [off Ho]; [lia | change (Z.of_nat 8) with 8; lia |].
    destruct (load_le_some 8 fileData
                (wrap64 (wrap64 (e_shoff elfHeader + 64 * j) + 32)))
      as [size Hz]; [lia | change (Z.of_nat 8) with 8; lia |].
    exists off, size. split; assumption.
Qed.

Lemma findTextSection_defined_on_valid_table_witness :
  (exists off size,
     findTextSection image_two_text (ehdr64 64 3 0)
       = Some (Found off size)) \/
  findTextSection image_two_text (ehdr64 64 3 0)
    = Some (NotFound NoTextSection).
Proof.
  exact (findTextSection_defined_on_valid_table image_two_text
           (ehdr64 64 3 0) image_two_text_valid).
Defined.

Lemma cstring_firstn (l : list byte) : forall s,
  cstring l = Some s -> firstn (S (length s)) l = (s ++ [x00])%list.
Proof.
  induction l as [|c l IH]; intros s H; [discriminate|].
  cbn [cstring] in H. destruct (Byte.eqb c x00) eqn:E.
  - injection H as <-. apply byte_eqb_eq in E. subst c. reflexivity.
  - destruct (cstring l) as [s'|]; [|discriminate].
    injection H as <-.
    change (c :: firstn (S (length s')) l = c :: (s' ++ [x00])%list).
    rewrite (IH s' eq_refl). reflexivity.
Qed.

Lemma firstn_cstring (s : list byte) : forall l,
  Forall (fun b => b <> x00) s ->
  firstn (S (length s)) l = (s ++ [x00])%list -> cstring l = Some s.
Proof.
  induction s as [|k s IH]; intros [|c l] Hnz H; try discriminate.
  - cbn in H. injection H as ->. reflexivity.
  - change (c :: firstn (S (length s)) l = k :: (s ++ [x00])%list) in H.
    injection H as -> H.
    inversion Hnz as [|? ? Hk Hs]; subst.
    cbn [cstring]. rewrite (byte_eqb_neq _ _ Hk).
    rewrite (IH l Hs H). reflexivity.
Qed.

(** X18: the name comparison of the lookup is exact.  For a literal
    without a zero byte, the comparison at an image position succeeds
    exactly when the bytes at that position are the literal followed by a
    zero byte, all inside the image: a longer name that begins with the
    literal, a shorter one, or a name cut off by the end of the image does
    not match. *)
Theorem strcmp_eq_exact (data : list byte) (pos : Z) (s : list byte) :
  Forall (fun b => b <> x00) s ->
  (strcmp_eq data pos s = Some true <->
   0 <= pos /\
   firstn (S (length s)) (skipn (Z.to_nat pos) data) = (s ++ [x00])%list).
Proof.
  intros Hnz. rewrite (strcmp_eq_true_iff _ _ _ Hnz). split.
  - intros H. destruct (cstring_at_inv _ _ _ H) as (Hpos & _ & Hc).
    split; [assumption | apply cstring_firstn; assumption].
  - intros [Hpos H]. unfold cstring_at.
    destruct (Z.lt_ge_cases pos (Z.of_nat (length data))) as [Hlt|Hge].
    + replace ((0 <=? pos) && (pos <? Z.of_nat (length data))) with true
        by (symmetry; apply andb_true_iff; split;
            [apply Z.leb_le | apply Z.ltb_lt]; lia).
      apply firstn_cstring; assumption.
    + rewrite skipn_all2 in H by lia. rewrite firstn_nil in H.
      destruct s; discriminate.
Qed.

Lemma strcmp_eq_exact_witness :
  strcmp_eq image_two_text 257 dot_text = Some true <->
  0 <= 257 /\
  firstn (S (length dot_text)) (skipn (Z.to_nat 257) image_two_text)
    = (dot_text ++ [x00])%list.
Proof. apply strcmp_eq_exact. exact dot_text_nonzero. Defined.

(** The lines of a normally ended decode with base address 0 tile the
    input, when the input size fits 64 bits. *)
Lemma Main_finished_tiling (code : list byte)
    (recs : list DecodedInstruction) :
  Z.of_nat (length code) < 2 ^ 64 ->
  Main.disassemble code 0 = (recs, Finished) ->
  tiling recs (length code).
Proof.
  intros Hsize H.
  destruct (Main_exit 0 code) as (Hl & Hcur & Hle & Hs).
  unfold Main.disassemble in H. cbv zeta in H, Hl, Hcur, Hle, Hs.
  injection H as Hlines Hstop. apply Hs in Hstop.
  rewrite Hlines in *. rewrite Hstop in Hcur. rewrite Hcur.
  apply laid_from_tiling.
  apply (laid_from_ext (fun i => wrap64 (0 + Z.of_nat i))); [|assumption].
  intros i Hi. unfold wrap64. rewrite Z.add_0_l.
  apply Z.mod_small. lia.
Qed.

Lemma slice_some (data : list byte) (off size : Z) (text : list byte) :
  slice data off size = Some text <->
  0 <= off /\ 0 <= size /\ off + size <= Z.of_nat (length data) /\
  text = firstn (Z.to_nat size) (skipn (Z.to_nat off) data).
Proof.
  unfold slice.
  destruct ((0 <=? off) && (0 <=? size)
            && (off + size <=? Z.of_nat (length data))) eqn:E.
  - apply andb_true_iff in E. destruct E as [E E3].
    apply andb_true_iff in E. destruct E as [E1 E2].
    apply Z.leb_le in E1, E2, E3.
    split; [intros H; injection H as <-; auto | intros (_ & _ & _ & ->); reflexivity].
  - split; [discriminate|]. intros (H1 & H2 & H3 & _).
    apply Z.leb_le in H1, H2, H3. rewrite H1, H2, H3 in E. discriminate.
Qed.

(** What stands behind a listing of [main]. *)
Lemma main_lists_located_section_aux (code text : list byte)
    (listing : list DecodedInstruction * Stop) :
  main code = Some (Disassembled text listing) ->
  exists elfHeader off size,
    findTextSection code elfHeader = Some (Found off size) /\
    off + size <= Z.of_nat (length code) /\
    text = firstn (Z.to_nat size) (skipn (Z.to_nat off) code) /\
    listing = Main.disassemble text 0.
Proof.
  unfold main. intros H.
  destruct (printELFHeader code) as [report|]; [|discriminate].
  cbn [bind] in H.
  destruct (findTextSection_in_file code 0) as [[off size|why]|] eqn:Ef;
    try discriminate; cbn [bind] in H.
  destruct (findTextSection_in_file_found _ _ _ _ Ef) as (hdr & Hh & Hf).
  destruct (Z.of_nat (length code) <? wrap64 (off + size));
    [discriminate|].
  destruct (slice code off size) as [t|] eqn:Es; [|discriminate].
  cbn [bind] in H. injection H as <- <-.
  apply slice_some in Es. destruct Es as (H0 & H1 & H2 & ->).
  exists hdr, off, size. repeat split; assumption.
Qed.

(** X19: [main] produces a listing exactly when the header report, the
    header overlay and the lookup are defined, the lookup returns a
    section, and offset plus size does not exceed the file length; the
    bytes it decodes are then exactly the [size] bytes of the file from
    [offset] on, decoded with base address 0.  A section that lies inside
    the file is never refused. *)
Theorem main_lists_located_section (code text : list byte)
    (listing : list DecodedInstruction * Stop) :
  main code = Some (Disassembled text listing) <->
  exists report elfHeader off size,
    printELFHeader code = Some report /\
    overlay_Elf64_Ehdr code 0 = Some elfHeader /\
    findTextSection code elfHeader = Some (Found off size) /\
    off + size <= Z.of_nat (length code) /\
    text = firstn (Z.to_nat size) (skipn (Z.to_nat off) code) /\
    listing = Main.disassemble text 0.
Proof.
  unfold main. split.
  - intros H.
    destruct (printELFHeader code) as [report|]; [|discriminate].
    cbn [bind] in H.
    destruct (findTextSection_in_file code 0) as [[off size|why]|] eqn:Ef;
      try discriminate; cbn [bind] in H.
    destruct (findTextSection_in_file_found _ _ _ _ Ef) as (hdr & Hh & Hf).
    destruct (Z.of_nat (length code) <? wrap64 (off + size));
      [discriminate|].
    destruct (slice code off size) as [t|] eqn:Es; [|discriminate].
    cbn [bind] in H. injection H as <- <-.
    apply slice_some in Es. destruct Es as (H0 & H1 & H2 & ->).
    exists report, hdr, off, size. repeat split; assumption.
  - intros (report & hdr & off & size & Hp & Hh & Hf & Hin & -> & ->).
    rewrite Hp. cbn [bind].
    rewrite (findTextSection_in_file_overlay _ _ _ Hh), Hf. cbn [bind].
    destruct (findTextSection_found_fits _ _ _ _ Hf) as [[Ho _] [Hz _]].
    assert (Hw : wrap64 (off + size) <= off + size)
      by (unfold wrap64; apply Z.mod_le; lia).
    replace (Z.of_nat (length code) <? wrap64 (off + size)) with false
      by (symmetry; apply Z.ltb_ge; lia).
    replace (slice code off size)
      with (Some (firstn (Z.to_nat size) (skipn (Z.to_nat off) code)))
      by (symmetry; apply slice_some; auto).
    reflexivity.
Qed.

(** X20: when [main] produces a listing that ends normally, its lines
    tile the extracted section: addresses start at 0, each line starts
    where the previous one ends, and the widths add up to the number of
    bytes of the section.  No assumption on the file is needed: the size
    of the section is a 64-bit value read from the file. *)
Theorem main_listing_tiles_section (code text : list byte)
    (recs : list DecodedInstruction) :
  main code = Some (Disassembled text (recs, Finished)) ->
  tiling recs (length text).
Proof.
  intros H. apply main_lists_located_section_aux in H.
  destruct H as (hdr & off & size & Hf & Hin & -> & Hd).
  destruct (findTextSection_found_fits _ _ _ _ Hf) as [_ [Hz0 Hz]].
  change (256 ^ Z.of_nat 8) with (2 ^ 64) in Hz.
  apply Main_finished_tiling; [|symmetry; exact Hd].
  rewrite length_firstn. lia.
Qed.

Lemma main_listing_tiles_section_witness :
  tiling [mkInstr 0 "mov" "rax, 0x1" 5; mkInstr 5 "nop" "" 1]
    (length [xb8; x01; x00; x00; x00; x90]).
Proof.
  apply (main_listing_tiles_section image_two_text).
  vm_compute. reflexivity.
Defined.

(** ** The kinds of lines *)

Lemma emitted_In (body : list byte -> nat -> Step) (code : list byte)
    (recs : list DecodedInstruction) : forall start final r,
  emitted body code start recs final -> In r recs ->
  exists i j, body code i = Emit r j.
Proof.
  induction recs as [|x recs IH]; intros start final r He Hin;
    [contradiction|].
  cbn [emitted] in He. destruct He as (j & Hb & He).
  destruct Hin as [<- | Hin]; [eauto|].
  eapply IH; eassumption.
Qed.

(** The operand of a db line, character by character. *)
Lemma db_operand_digits (b : byte) :
  "0x" ++ hex_pad 2 (u8 b) =
  String "0" (String "x"
    (String (hex_digit (u8 b / 16))
       (String (hex_digit (u8 b mod 16)) EmptyString))).
Proof. destruct b; reflexivity. Qed.

Lemma Main_body_line baseAddress code i r j :
  Main.body baseAddress code i = Emit r j ->
  exists b,
    at_index code i = Some b /\
    address r = wrap64 (baseAddress + Z.of_nat i) /\
    (is_mov_opcode b /\ mnemonic r = "mov" /\ byteWidth r = 5%nat \/
     u8 b = 0x90 /\ mnemonic r = "nop" /\ operandText r = "" /\
       byteWidth r = 1%nat \/
     ~ is_mov_opcode b /\ u8 b <> 0x90 /\ mnemonic r = "db" /\
       operandText r = "0x" ++ hex_pad 2 (u8 b) /\ byteWidth r = 1%nat).
Proof.
  unfold Main.body, is_mov_opcode.
  destruct (at_index code i) as [b|]; [|discriminate].
  intros H. exists b. split; [reflexivity|].
  destruct ((0xB8 <=? u8 b) && (u8 b <=? 0xBF)) eqn:Eop.
  - apply andb_true_iff in Eop. destruct Eop as [E1 E2].
    apply Z.leb_le in E1, E2.
    destruct (length code <? i + 4)%nat; [discriminate|].
    destruct (read32 code (i + 1)); [|discriminate].
    injection H as <- <-.
    split; [reflexivity|]. left. repeat split; assumption.
  - assert (Hno : ~ (0xB8 <= u8 b <= 0xBF)).
    { intros [H1 H2]. apply Z.leb_le in H1, H2. rewrite H1, H2 in Eop.
      discriminate. }
    destruct (u8 b =? 0x90) eqn:E90; injection H as <- <-;
      (split; [reflexivity|]).
    + apply Z.eqb_eq in E90. right. left. repeat split; assumption.
    + apply Z.eqb_neq in E90. right. right. repeat split; assumption.
Qed.

Lemma Alt_body_line code i r j :
  Alt.body code i = Emit r j ->
  exists b,
    at_index code i = Some b /\
    address r = Z.of_nat i /\
    (is_mov_opcode b /\ mnemonic r = "mov" /\ byteWidth r = 5%nat \/
     u8 b = 0xC3 /\ mnemonic r = "ret" /\ operandText r = "" /\
       byteWidth r = 1%nat \/
     u8 b = 0x90 /\ mnemonic r = "nop" /\ operandText r = "" /\
       byteWidth r = 1%nat \/
     ~ is_mov_opcode b /\ u8 b <> 0xC3 /\ u8 b <> 0x90 /\
       mnemonic r = "db" /\
       operandText r = "0x" ++ hex_pad 2 (u8 b) /\ byteWidth r = 1%nat).
Proof.
  unfold Alt.body, is_mov_opcode.
  destruct (at_index code i) as [b|]; [|discriminate].
  intros H. exists b. split; [reflexivity|].
  destruct ((0xB8 <=? u8 b) && (u8 b <=? 0xBF)) eqn:Eop.
  - apply andb_true_iff in Eop. destruct Eop as [E1 E2].
    apply Z.leb_le in E1, E2.
    destruct (length code <? i + 4)%nat; [discriminate|].
    destruct (read32 code (i + 1)); [|discriminate].
    injection H as <- <-.
    split; [reflexivity|]. left. repeat split; assumption.
  - assert (Hno : ~ (0xB8 <= u8 b <= 0xBF)).
    { intros [H1 H2]. apply Z.leb_le in H1, H2. rewrite H1, H2 in Eop.
      discriminate. }
    destruct (u8 b =? 0xC3) eqn:Ec3.
    { injection H as <- <-. apply Z.eqb_eq in Ec3.
      split; [reflexivity|]. right. left. repeat split; assumption. }
    apply Z.eqb_neq in Ec3.
    destruct (u8 b =? 0x90) eqn:E90; injection H as <- <-;
      (split; [reflexivity|]).
    + apply Z.eqb_eq in E90. right. right. left. repeat split; assumption.
    + apply Z.eqb_neq in E90. right. right. right.
      repeat split; assumption.
Qed.

(** X21: every line of a listing describes the input byte at one cursor
    position, and its kind fixes its width.  For the 64-bit decoder a line
    is a mov of width 5 at a byte in [B8, BF], a nop of width 1 with no
    operand at a byte 90, or a db of width 1 at any other byte, with the
    operand "0x" and exactly two hexadecimal digits, the high and the low
    half of the byte in lower case; its address is the base address plus
    the cursor in 64 bits.  The stand-alone decoder has in addition the
    ret of width 1 at a byte C3, and its address is the cursor. *)
Theorem lines_describe_bytes (code : list byte) (baseAddress : Z) :
  (forall r, In r (fst (Main.disassemble code baseAddress)) ->
     exists i b,
       at_index code i = Some b /\
       address r = wrap64 (baseAddress + Z.of_nat i) /\
       (is_mov_opcode b /\ mnemonic r = "mov" /\ byteWidth r = 5%nat \/
        u8 b = 0x90 /\ mnemonic r = "nop" /\ operandText r = "" /\
          byteWidth r = 1%nat \/
        ~ is_mov_opcode b /\ u8 b <> 0x90 /\ mnemonic r = "db" /\
          operandText r =
            String "0" (String "x"
              (String (hex_digit (u8 b / 16))
                 (String (hex_digit (u8 b mod 16)) EmptyString))) /\
          byteWidth r = 1%nat)) /\
  (forall r, In r (fst (Alt.disassemble code)) ->
     exists i b,
       at_index code i = Some b /\
       address r = Z.of_nat i /\
       (is_mov_opcode b /\ mnemonic r = "mov" /\ byteWidth r = 5%nat \/
        u8 b = 0xC3 /\ mnemonic r = "ret" /\ operandText r = "" /\
          byteWidth r = 1%nat \/
        u8 b = 0x90 /\ mnemonic r = "nop" /\ operandText r = "" /\
          byteWidth r = 1%nat \/
        ~ is_mov_opcode b /\ u8 b <> 0xC3 /\ u8 b <> 0x90 /\
          mnemonic r = "db" /\
          operandText r =
            String "0" (String "x"
              (String (hex_digit (u8 b / 16))
                 (String (hex_digit (u8 b mod 16)) EmptyString))) /\
          byteWidth r = 1%nat)).
Proof.
  split; intros r Hin.
  - unfold Main.disassemble in Hin. cbv zeta in Hin. cbn [fst] in Hin.
    destruct (loop_emitted (Main.body baseAddress)
                (Main.decode_from baseAddress)
                (Main_decode_from_unfold baseAddress)
                (Main_body_advances baseAddress)
                (length code) code 0%nat [] ltac:(lia)) as (recs & Hl & He).
    cbn [app] in Hl. rewrite Hl in Hin.
    destruct (emitted_In _ _ _ _ _ _ He Hin) as (i & j & Hb).
    destruct (Main_body_line _ _ _ _ _ Hb) as (b & Hat & Ha & Hk).
    exists i, b. split; [assumption|]. split; [assumption|].
    destruct Hk as [Hk | [Hk | (H1 & H2 & H3 & H4 & H5)]];
      [left; exact Hk | right; left; exact Hk |].
    right. right. rewrite H4, db_operand_digits.
    repeat split; assumption.
  - unfold Alt.disassemble in Hin. cbv zeta in Hin. cbn [fst] in Hin.
    destruct (loop_emitted Alt.body Alt.decode_from
                Alt_decode_from_unfold Alt_body_advances
                (length code) code 0%nat [] ltac:(lia)) as (recs & Hl & He).
    cbn [app] in Hl. rewrite Hl in Hin.
    destruct (emitted_In _ _ _ _ _ _ He Hin) as (i & j & Hb).
    destruct (Alt_body_line _ _ _ _ Hb) as (b & Hat & Ha & Hk).
    exists i, b. split; [assumption|]. split; [assumption|].
    destruct Hk as [Hk | [Hk | [Hk | (H1 & H2 & H3 & H4 & H5 & H6)]]];
      [left; exact Hk | right; left; exact Hk
      | right; right; left; exact Hk |].
    right. right. right. rewrite H5, db_operand_digits.
    repeat split; assumption.
Qed.

(** X22: a file whose [e_shoff] field, the bytes 40 to 47, is zero makes
    [main] stop with "No section header table found", whatever else the
    file holds and even when it ends before the 64 bytes of the header:
    the lookup reads [e_shoff] first and needs no other field for this
    failure. *)
Theorem main_without_section_table (code : list byte)
    (report : HeaderReport) :
  printELFHeader code = Some report ->
  load64 code 40 = Some 0 ->
  main code = Some (LocateFailed NoSectionTable).
Proof.
  intros Hp Hs. unfold main, findTextSection_in_file.
  rewrite Hp. cbn [bind]. change (0 + 40) with 40. rewrite Hs.
  reflexivity.
Qed.

Lemma main_without_section_table_witness :
  length (repeat x00 48) = 48%nat /\
  main (repeat x00 48) = Some (LocateFailed NoSectionTable).
Proof.
  split; [reflexivity|].
  apply (main_without_section_table (repeat x00 48) NotAnELF);
    vm_compute; reflexivity.
Defined.
